(** * Hello_Starfield: a twinkling starfield with comets on an LED strip

    A shallow embedding of [hello_Starfield.py] and the properties of its
    animation engine.

    The program computes with Python floats.  The embedding is written once,
    over an interface [Scalar] of the arithmetic the program uses, and is
    instantiated twice:
    - [Q_scalar]: exact rational arithmetic (no rounding);
    - [f64_scalar]: IEEE 754 binary64, the kernel's primitive floats, which
      is what the interpreter computes with.
    Statements that only depend on the control structure are proved for every
    [Scalar]; statements about orders of magnitude are proved over the exact
    instance and evaluated on the binary64 instance. *)

From Stdlib Require Import ZArith QArith Qround Qabs List Bool Lia Lqa FinFun.
From Stdlib Require Import Floats.
Import ListNotations.

Set Implicit Arguments.

(* ================================================================== *)
(** ** Arithmetic interface *)

Class Scalar (F : Type) : Type := {
  fadd : F -> F -> F;
  fsub : F -> F -> F;
  fmul : F -> F -> F;
  fdiv : F -> F -> F;
  fltb : F -> F -> bool;   (* [a < b] *)
  of_int : Z -> F          (* [float(n)], and the value of an integer literal *)
}.

Declare Scope scalar_scope.
Delimit Scope scalar_scope with S.
Notation "x + y" := (fadd x y) : scalar_scope.
Notation "x - y" := (fsub x y) : scalar_scope.
Notation "x * y" := (fmul x y) : scalar_scope.
Notation "x / y" := (fdiv x y) : scalar_scope.
Notation "x <? y" := (fltb x y) : scalar_scope.
Notation "x >? y" := (fltb y x) : scalar_scope.

(** A decimal literal [n/d] of the source, such as [0.02] = [dec 2 100]. *)
Definition dec {F} `{Scalar F} (n d : Z) : F := (of_int n / of_int d)%S.

(** Python's [min(a, b)] on two arguments: the first one unless the second
    is smaller. *)
Definition py_min {F} `{Scalar F} (a b : F) : F :=
  if (b <? a)%S then b else a.

(** *** Exact rationals *)

Definition Qltb (a b : Q) : bool := negb (Qle_bool b a).

#[export] Instance Q_scalar : Scalar Q := {
  fadd := Qplus;
  fsub := Qminus;
  fmul := Qmult;
  fdiv := Qdiv;
  fltb := Qltb;
  of_int := inject_Z
}.

(** *** Binary64 *)

Definition f64_of_Z (z : Z) : float :=
  match z with
  | Z0 => PrimFloat.zero
  | Zpos _ => PrimFloat.of_uint63 (Uint63.of_Z z)
  | Zneg p => PrimFloat.opp (PrimFloat.of_uint63 (Uint63.of_Z (Zpos p)))
  end.

#[export] Instance f64_scalar : Scalar float := {
  fadd := PrimFloat.add;
  fsub := PrimFloat.sub;
  fmul := PrimFloat.mul;
  fdiv := PrimFloat.div;
  fltb := PrimFloat.ltb;
  of_int := f64_of_Z
}.

(** The exact value of a finite binary64 number. *)
Definition f64_to_Q (x : float) : Q :=
  match Prim2SF x with
  | S754_finite s m e =>
      let v := if s then Zneg m else Zpos m in
      (inject_Z v * Qpower (2 # 1) e)%Q
  | _ => 0%Q
  end.

(* ================================================================== *)
(** ** Lists indexed the way Python indexes them *)

Section PyList.
Context {A : Type}.

(** [l[i]] accepts [-len <= i < len]; a negative index counts from the
    end; anything else raises [IndexError] (here [None]). *)
Definition py_index (len : nat) (i : Z) : option nat :=
  if (0 <=? i)%Z then
    if (i <? Z.of_nat len)%Z then Some (Z.to_nat i) else None
  else if (- Z.of_nat len <=? i)%Z then Some (Z.to_nat (Z.of_nat len + i))
  else None.

Fixpoint list_set (l : list A) (n : nat) (v : A) : list A :=
  match l, n with
  | [], _ => []
  | _ :: t, O => v :: t
  | h :: t, S n' => h :: list_set t n' v
  end.

Definition getitem (l : list A) (i : Z) : option A :=
  match py_index (length l) i with
  | Some n => nth_error l n
  | None => None
  end.

Definition setitem (l : list A) (i : Z) (v : A) : option (list A) :=
  match py_index (length l) i with
  | Some n => Some (list_set l n v)
  | None => None
  end.
End PyList.

(** [range(n)] *)
Definition range (n : Z) : list Z := map Z.of_nat (seq 0 (Z.to_nat n)).

(* ================================================================== *)
(** ** Configuration, state and effects *)

(** The CONFIG block of the source. *)
Record Config (F : Type) : Type := mkConfig {
  NUM_LEDS : Z;
  STAR_MIN_BRIGHT : F;
  STAR_MAX_BRIGHT : F;
  STAR_FADE_SPEED : F;
  STAR_NEW_TARGET_CHANCE : F;
  STAR_SATURATION_MAX : F;
  STAR_HUE_SPREAD : Z;
  TWINKLE_FRAME_DELAY : F;
  COMET_BASE_CHANCE : F;
  COMET_MIN_TRAIL : Z;
  COMET_MAX_TRAIL : Z;
  COMET_MIN_SPEED : F;
  COMET_MAX_SPEED : F;
  COMET_HEAD_BRIGHT_MIN : F;
  COMET_HEAD_BRIGHT_MAX : F;
  AFTERGLOW_MAX : F;
  COMET_HUE : F;
  COMET_SAT : F
}.

(** The values the source file assigns. *)
Definition source_config {F} `{Scalar F} : Config F := {|
  NUM_LEDS := 66;
  STAR_MIN_BRIGHT := dec 2 100;
  STAR_MAX_BRIGHT := dec 8 10;
  STAR_FADE_SPEED := dec 1 100;
  STAR_NEW_TARGET_CHANCE := dec 1 100;
  STAR_SATURATION_MAX := dec 5 100;
  STAR_HUE_SPREAD := 20;
  TWINKLE_FRAME_DELAY := dec 5 100;
  COMET_BASE_CHANCE := dec 15 100000;
  COMET_MIN_TRAIL := 3;
  COMET_MAX_TRAIL := 8;
  COMET_MIN_SPEED := dec 15 1000;
  COMET_MAX_SPEED := dec 35 1000;
  COMET_HEAD_BRIGHT_MIN := dec 6 10;
  COMET_HEAD_BRIGHT_MAX := of_int 1;
  AFTERGLOW_MAX := dec 4 10;
  COMET_HUE := (of_int 220 / of_int 360)%S;
  COMET_SAT := dec 1 10
|}.

(** The random module, as an oracle: the successive results of [random()]
    (reals of [0, 1)) and the successive raw integers behind [randrange]. *)
Record Rng (F : Type) : Type := mkRng {
  unit_draw : nat -> F;
  int_draw : nat -> Z
}.

(** What the program does to the outside world. *)
Inductive event (F : Type) : Type :=
| Start                          (* led_strip.start() *)
| SetHsv (i : Z) (h s v : F)     (* led_strip.set_hsv(i, h, s, v) *)
| Sleep (d : F).                 (* time.sleep(d) *)
Arguments Start {F}.
Arguments SetHsv {F} i h s v.
Arguments Sleep {F} d.

(** The four module-level arrays, the number of draws taken from the random
    module so far, and the effects performed so far (oldest first). *)
Record State (F : Type) : Type := mkState {
  star_current : list F;
  star_target : list F;
  star_hue : list F;
  star_sat : list F;
  rng_calls : nat;
  events : list (event F)
}.

Inductive exn : Type := IndexError | ValueError.

Inductive result (A : Type) : Type :=
| Ok (a : A)
| Raised (e : exn)
| OutOfFuel.
Arguments Ok {A} a.
Arguments Raised {A} e.
Arguments OutOfFuel {A}.

(** Computations that read and write the state, may raise, and (for the
    [while] loops) may run out of fuel. *)
Definition M (F A : Type) : Type := State F -> result (A * State F).

Definition ret {F A} (a : A) : M F A := fun st => Ok (a, st).

Definition bind {F A B} (m : M F A) (k : A -> M F B) : M F B :=
  fun st =>
    match m st with
    | Ok (a, st') => k a st'
    | Raised e => Raised e
    | OutOfFuel => OutOfFuel
    end.

Declare Scope monad_scope.
Delimit Scope monad_scope with monad.
Notation "x <- c1 ;; c2" := (bind c1 (fun x => c2))
  (at level 61, c1 at next level, right associativity) : monad_scope.
Notation "c1 ;; c2" := (bind c1 (fun _ => c2))
  (at level 61, right associativity) : monad_scope.

(** [for x in l: body(x)] *)
Fixpoint for_each {F A} (l : list A) (body : A -> M F unit) : M F unit :=
  match l with
  | [] => ret tt
  | x :: t => bind (body x) (fun _ => for_each t body)
  end.

Definition with_current {F} (st : State F) (l : list F) : State F :=
  mkState l (star_target st) (star_hue st) (star_sat st) (rng_calls st) (events st).
Definition with_target {F} (st : State F) (l : list F) : State F :=
  mkState (star_current st) l (star_hue st) (star_sat st) (rng_calls st) (events st).
Definition with_hue {F} (st : State F) (l : list F) : State F :=
  mkState (star_current st) (star_target st) l (star_sat st) (rng_calls st) (events st).
Definition with_sat {F} (st : State F) (l : list F) : State F :=
  mkState (star_current st) (star_target st) (star_hue st) l (rng_calls st) (events st).
Definition with_rng_calls {F} (st : State F) (n : nat) : State F :=
  mkState (star_current st) (star_target st) (star_hue st) (star_sat st) n (events st).
Definition with_events {F} (st : State F) (l : list (event F)) : State F :=
  mkState (star_current st) (star_target st) (star_hue st) (star_sat st) (rng_calls st) l.

(** Reading and writing one cell of an array of the state. *)
Definition load {F} (arr : State F -> list F) (i : Z) : M F F :=
  fun st =>
    match getitem (arr st) i with
    | Some v => Ok (v, st)
    | None => Raised IndexError
    end.

Definition store {F} (arr : State F -> list F)
    (upd : State F -> list F -> State F) (i : Z) (v : F) : M F unit :=
  fun st =>
    match setitem (arr st) i v with
    | Some l => Ok (tt, upd st l)
    | None => Raised IndexError
    end.

Definition emit {F} (e : event F) : M F unit :=
  fun st => Ok (tt, with_events st (events st ++ [e])).

(* ================================================================== *)
(** ** The program *)

Section Program.
Context {F : Type} {SF : Scalar F}.
Variable cfg : Config F.
Variable rng : Rng F.

Local Open Scope monad_scope.
Local Open Scope scalar_scope.

(** *** External capabilities *)

(** [random()] *)
Definition random : M F F :=
  fun st => Ok (unit_draw rng (rng_calls st), with_rng_calls st (S (rng_calls st))).

(** [uniform(a, b)], which the random module computes as
    [a + (b - a) * random()]. *)
Definition uniform (a b : F) : M F F :=
  r <- random ;;
  ret (a + (b - a) * r).

(** [randrange(lo, hi)]: an integer of [lo, hi); an empty range raises
    [ValueError]. *)
Definition randrange (lo hi : Z) : M F Z :=
  fun st =>
    if (hi <=? lo)%Z then Raised ValueError
    else Ok ((lo + int_draw rng (rng_calls st) mod (hi - lo))%Z,
             with_rng_calls st (S (rng_calls st))).

Definition set_hsv (i : Z) (h s v : F) : M F unit := emit (SetHsv i h s v).
Definition sleep (d : F) : M F unit := emit (Sleep d).
Definition start : M F unit := emit Start.

(** *** Star state per LED *)

Definition get_current := load (@star_current F).
Definition set_current := store (@star_current F) (@with_current F).
Definition get_target := load (@star_target F).
Definition set_target := store (@star_target F) (@with_target F).
Definition get_hue := load (@star_hue F).
Definition set_hue := store (@star_hue F) (@with_hue F).
Definition get_sat := load (@star_sat F).
Definition set_sat := store (@star_sat F) (@with_sat F).

(** The arrays as the SETUP block leaves them: [[0.0] * NUM_LEDS]. *)
Definition initial_state : State F :=
  let zeros := repeat (of_int 0) (Z.to_nat (NUM_LEDS cfg)) in
  mkState zeros zeros zeros zeros 0 [].

(** *** random_star_brightness *)

Definition random_star_brightness : M F F :=
  x <- uniform (of_int 0) (of_int 1) ;;
  let x := x * x in
  ret (STAR_MIN_BRIGHT cfg + x * (STAR_MAX_BRIGHT cfg - STAR_MIN_BRIGHT cfg)).

(** *** init_stars *)

Definition init_star (i : Z) : M F unit :=
  b <- random_star_brightness ;;
  set_current i b ;;
  t <- random_star_brightness ;;
  set_target i t ;;
  hue_offset_deg <- uniform (of_int (- STAR_HUE_SPREAD cfg) / of_int 2)
                            (of_int (STAR_HUE_SPREAD cfg) / of_int 2) ;;
  set_hue i ((of_int 220 + hue_offset_deg) / of_int 360) ;;
  s <- uniform (of_int 0) (STAR_SATURATION_MAX cfg) ;;
  set_sat i s.

Definition init_stars : M F unit :=
  for_each (range (NUM_LEDS cfg)) init_star.

(** *** update_stars *)

(** Lines 109-116: one easing step of [cur] towards [tgt]. *)
Definition ease (cur tgt : F) : F :=
  if cur <? tgt then
    let cur := cur + STAR_FADE_SPEED cfg in
    if cur >? tgt then tgt else cur
  else if cur >? tgt then
    let cur := cur - STAR_FADE_SPEED cfg in
    if cur <? tgt then tgt else cur
  else cur.

(** Lines 102-103: occasionally choose a new random target brightness. *)
Definition new_target (i : Z) : M F unit :=
  r <- random ;;
  if r <? STAR_NEW_TARGET_CHANCE cfg
  then (b <- random_star_brightness ;; set_target i b)
  else ret tt.

(** The body of the loop of [update_stars], for star [i]. *)
Definition update_star (i : Z) : M F unit :=
  new_target i ;;
  cur <- get_current i ;;
  tgt <- get_target i ;;
  let cur := ease cur tgt in
  set_current i cur ;;
  h <- get_hue i ;;
  s <- get_sat i ;;
  set_hsv i h s cur.

Definition update_stars : M F unit :=
  for_each (range (NUM_LEDS cfg)) update_star.

(** *** run_comet *)

(** Line 149: one star drawn as it is. *)
Definition draw_star (i : Z) : M F unit :=
  h <- get_hue i ;;
  s <- get_sat i ;;
  c <- get_current i ;;
  set_hsv i h s c.

Definition draw_background : M F unit :=
  for_each (range (NUM_LEDS cfg)) draw_star.

(** Lines 156-161: the fraction along the tail, the brightness and the
    saturation at trail offset [k]. *)
Definition frac (trail_len k : Z) : F :=
  of_int (trail_len - k) / of_int trail_len.

Definition comet_b (head_brightness : F) (trail_len k : Z) : F :=
  let frac := frac trail_len k in
  head_brightness * (frac * frac).

Definition tail_sat (trail_len k : Z) : F :=
  COMET_SAT cfg * frac trail_len k.

(** Lines 153-169: the body of the loop over the trail, at offset [k]. *)
Definition draw_trail (trail_len direction : Z) (head_brightness : F)
    (head k : Z) : M F unit :=
  let pos := (head - k * direction)%Z in
  if ((0 <=? pos) && (pos <? NUM_LEDS cfg))%Z then
    let comet_b := comet_b head_brightness trail_len k in
    let tail_sat := tail_sat trail_len k in
    let tail_hue := COMET_HUE cfg in
    set_hsv pos tail_hue tail_sat comet_b ;;
    let glow_boost := comet_b * AFTERGLOW_MAX cfg in
    c <- get_current pos ;;
    let new_star_b := py_min (c + glow_boost) (STAR_MAX_BRIGHT cfg) in
    set_current pos new_star_b
  else ret tt.

(** Lines 147-171: one sub-frame, the comet's head being at [head]. *)
Definition comet_frame (trail_len direction : Z)
    (comet_delay head_brightness : F) (head : Z) : M F unit :=
  draw_background ;;
  for_each (range trail_len) (draw_trail trail_len direction head_brightness head) ;;
  sleep comet_delay.

(** Lines 146-172: [while head != end]. At most [fuel] sub-frames are run.
    The result is the list of the values [head] took at the sub-frames,
    first one first. *)
Fixpoint comet_loop (fuel : nat) (trail_len direction : Z)
    (comet_delay head_brightness : F) (head end_ step : Z) : M F (list Z) :=
  if (head =? end_)%Z then ret []
  else
    match fuel with
    | O => fun _ => OutOfFuel
    | S fuel' =>
        comet_frame trail_len direction comet_delay head_brightness head ;;
        rest <- comet_loop fuel' trail_len direction comet_delay
                  head_brightness (head + step)%Z end_ step ;;
        ret (head :: rest)
    end.

(** Lines 137-172: a comet whose parameters have been drawn. *)
Definition fly_comet (fuel : nat) (trail_len direction : Z)
    (comet_delay head_brightness : F) : M F (list Z) :=
  let '(head, end_, step) :=
    if (direction =? 1)%Z
    then (- trail_len, NUM_LEDS cfg + trail_len, 1)%Z
    else (NUM_LEDS cfg + trail_len, - trail_len, -1)%Z in
  comet_loop fuel trail_len direction comet_delay head_brightness
    head end_ step.

Definition run_comet (fuel : nat) : M F (list Z) :=
  trail_len <- randrange (COMET_MIN_TRAIL cfg) (COMET_MAX_TRAIL cfg + 1) ;;
  let trail_len :=
    if (trail_len >? NUM_LEDS cfg)%Z then NUM_LEDS cfg else trail_len in
  d <- randrange 0 2 ;;
  let direction := if (d =? 0)%Z then 1%Z else (-1)%Z in
  comet_delay <- uniform (COMET_MIN_SPEED cfg) (COMET_MAX_SPEED cfg) ;;
  head_brightness <-
    uniform (COMET_HEAD_BRIGHT_MIN cfg) (COMET_HEAD_BRIGHT_MAX cfg) ;;
  fly_comet fuel trail_len direction comet_delay head_brightness.

(** *** Main loop *)

(** One turn of [while True]. *)
Definition main_iteration (fuel : nat) : M F unit :=
  update_stars ;;
  u <- uniform (dec 5 10) (dec 15 10) ;;
  let comet_chance := COMET_BASE_CHANCE cfg * u in
  r <- random ;;
  (if r <? comet_chance then (_ <- run_comet fuel ;; ret tt) else ret tt) ;;
  sleep (TWINKLE_FRAME_DELAY cfg).

(** [while True] has no exit: every amount of fuel runs out. *)
Fixpoint main_loop (fuel : nat) : M F unit :=
  match fuel with
  | O => fun _ => OutOfFuel
  | S fuel' => main_iteration fuel ;; main_loop fuel'
  end.

Definition program (fuel : nat) : result (unit * State F) :=
  (start ;; init_stars ;; main_loop fuel) initial_state.

(** *** The decomposition of the specification *)

(** StarField.update: resample and ease every star. *)
Definition star_update (i : Z) : M F unit :=
  new_target i ;;
  cur <- get_current i ;;
  tgt <- get_target i ;;
  set_current i (ease cur tgt).

(** Update all the stars, then render all the stars. *)
Definition update_then_render : M F unit :=
  for_each (range (NUM_LEDS cfg)) star_update ;;
  for_each (range (NUM_LEDS cfg)) draw_star.

End Program.

(* ================================================================== *)
(** ** Lists: reading after writing *)

Section PyListFacts.
Context {A : Type}.
Implicit Types (l : list A) (i j : Z) (n m : nat) (v : A).

Lemma list_set_length l n v : length (list_set l n v) = length l.
Proof.
  revert n; induction l as [|a l IH]; intros [|n]; simpl; auto.
Qed.

Lemma nth_error_list_set_same l n v :
  (n < length l)%nat -> nth_error (list_set l n v) n = Some v.
Proof.
  revert n; induction l as [|a l IH]; intros [|n]; simpl; intros Hn;
    try lia; auto.
  apply IH; lia.
Qed.

Lemma nth_error_list_set_other l n m v :
  n <> m -> nth_error (list_set l n v) m = nth_error l m.
Proof.
  revert n m; induction l as [|a l IH]; intros [|n] [|m] Hnm; simpl;
    auto; try congruence.
Qed.

Lemma py_index_lt len i n : py_index len i = Some n -> (n < len)%nat.
Proof.
  unfold py_index.
  destruct (Z.leb_spec 0 i); [destruct (Z.ltb_spec i (Z.of_nat len))|
    destruct (Z.leb_spec (- Z.of_nat len) i)]; intros E; inversion E; lia.
Qed.

Lemma py_index_on_strip len i :
  (0 <= i < Z.of_nat len)%Z -> py_index len i = Some (Z.to_nat i).
Proof.
  intros Hi; unfold py_index.
  destruct (Z.leb_spec 0 i); [|lia].
  destruct (Z.ltb_spec i (Z.of_nat len)); [reflexivity|lia].
Qed.

Lemma py_index_nonneg len i n :
  (0 <= i)%Z -> py_index len i = Some n -> n = Z.to_nat i /\ (i < Z.of_nat len)%Z.
Proof.
  intros Hi; unfold py_index.
  destruct (Z.leb_spec 0 i); [|lia].
  destruct (Z.ltb_spec i (Z.of_nat len)); intros E; inversion E; auto.
Qed.

Lemma setitem_length l j v l' :
  setitem l j v = Some l' -> length l' = length l.
Proof.
  unfold setitem; destruct (py_index (length l) j); intros E; inversion E.
  apply list_set_length.
Qed.

Lemma getitem_Some_setitem l i c v :
  getitem l i = Some c -> exists l', setitem l i v = Some l'.
Proof.
  unfold getitem, setitem; destruct (py_index (length l) i); [eauto|discriminate].
Qed.

Lemma getitem_on_strip l i :
  (0 <= i < Z.of_nat (length l))%Z -> exists c, getitem l i = Some c.
Proof.
  intros Hi; unfold getitem; rewrite py_index_on_strip by assumption.
  destruct (nth_error l (Z.to_nat i)) eqn:E; [eauto|].
  apply nth_error_None in E; lia.
Qed.

(** The cell just written holds the value written. *)
Lemma getitem_setitem_same l j v l' :
  setitem l j v = Some l' -> getitem l' j = Some v.
Proof.
  intros E; unfold getitem; rewrite (setitem_length _ _ _ E).
  unfold setitem in E; destruct (py_index (length l) j) eqn:Ej; inversion E.
  apply nth_error_list_set_same; eapply py_index_lt; eassumption.
Qed.

(** Any cell is either the one written, or left as it was. *)
Lemma getitem_setitem_cases l i j v l' :
  setitem l j v = Some l' ->
  (getitem l' i = Some v /\ getitem l i = getitem l j) \/
  getitem l' i = getitem l i.
Proof.
  intros E; unfold getitem; rewrite (setitem_length _ _ _ E).
  unfold setitem in E; destruct (py_index (length l) j) as [n|] eqn:Ej;
    inversion E; subst l'; clear E.
  destruct (py_index (length l) i) as [m|] eqn:Ei; [|right; reflexivity].
  destruct (Nat.eq_dec n m) as [->|Hnm].
  - left; split; [|reflexivity].
    apply nth_error_list_set_same; eapply py_index_lt; eassumption.
  - right; apply nth_error_list_set_other; assumption.
Qed.

(** Two distinct indices of [0, len) name two distinct cells. *)
Lemma getitem_setitem_other l i j v l' :
  (0 <= i)%Z -> (0 <= j)%Z -> i <> j ->
  setitem l j v = Some l' -> getitem l' i = getitem l i.
Proof.
  intros Hi Hj Hij E; unfold getitem; rewrite (setitem_length _ _ _ E).
  unfold setitem in E; destruct (py_index (length l) j) as [n|] eqn:Ej;
    inversion E; subst l'; clear E.
  destruct (py_index (length l) i) as [m|] eqn:Ei; [|reflexivity].
  apply nth_error_list_set_other.
  apply py_index_nonneg in Ej, Ei; try assumption. lia.
Qed.
End PyListFacts.

Lemma range_spec n i : In i (range n) <-> (0 <= i < n)%Z.
Proof.
  unfold range; rewrite in_map_iff; split.
  - intros (k & <- & Hk); apply in_seq in Hk; lia.
  - intros Hi; exists (Z.to_nat i); split; [lia|apply in_seq; lia].
Qed.

Lemma range_NoDup n : NoDup (range n).
Proof.
  unfold range; apply Injective_map_NoDup; [|apply seq_NoDup].
  intros a b E; lia.
Qed.

Lemma range_length n : length (range n) = Z.to_nat n.
Proof. unfold range; rewrite length_map, length_seq; reflexivity. Qed.

(** [range] as an arithmetic progression from [0], one element at a time. *)
Lemma range_succ n : (0 <= n)%Z -> range (n + 1) = range n ++ [n].
Proof.
  intros Hn; unfold range.
  replace (Z.to_nat (n + 1)) with (S (Z.to_nat n)) by lia.
  rewrite seq_S, map_app; simpl. rewrite Z2Nat.id by assumption. reflexivity.
Qed.

(* ================================================================== *)
(** ** Loops *)

Section Loops.
Context {F A : Type}.
Implicit Types (l : list A) (body : A -> M F unit) (st : State F).

Lemma for_each_app l1 l2 body st :
  for_each (l1 ++ l2) body st =
  bind (for_each l1 body) (fun _ => for_each l2 body) st.
Proof.
  revert st; induction l1 as [|x l1 IH]; intros st; simpl.
  - reflexivity.
  - unfold bind in *. destruct (body x st) as [[[] st1]| |]; auto.
Qed.

Lemma for_each_ext l (f g : A -> M F unit) :
  (forall x st, In x l -> f x st = g x st) ->
  forall st, for_each l f st = for_each l g st.
Proof.
  induction l as [|x l IH]; intros E st; simpl; [reflexivity|].
  unfold bind. rewrite (E x st) by (left; reflexivity).
  destruct (g x st) as [[[] st1]| |]; auto.
  apply IH; intros; apply E; right; assumption.
Qed.

(** A property kept by every turn of the loop is kept by the loop. *)
Lemma for_each_inv (P : State F -> Prop) l body :
  (forall x st st', In x l -> P st -> body x st = Ok (tt, st') -> P st') ->
  forall st st', P st -> for_each l body st = Ok (tt, st') -> P st'.
Proof.
  induction l as [|x l IH]; intros Hbody st st' HP; simpl.
  - unfold ret; intros E; inversion E; subst; assumption.
  - unfold bind; destruct (body x st) as [[[] st1]| |] eqn:E1; try discriminate.
    apply IH; [intros; eapply Hbody; eauto; right; assumption|].
    eapply Hbody; eauto; left; reflexivity.
Qed.

(** A loop whose every turn succeeds, from every state that satisfies
    [P], and keeps [P], succeeds. *)
Lemma for_each_ok (P : State F -> Prop) l body :
  (forall x st, In x l -> P st -> exists st', body x st = Ok (tt, st') /\ P st') ->
  forall st, P st -> exists st', for_each l body st = Ok (tt, st') /\ P st'.
Proof.
  induction l as [|x l IH]; intros Hbody st HP; simpl.
  - exists st; split; [reflexivity|assumption].
  - destruct (Hbody x st (or_introl eq_refl) HP) as (st1 & E1 & HP1).
    unfold bind; rewrite E1.
    apply IH; [intros; apply Hbody; auto; right; assumption|assumption].
Qed.
End Loops.

(* ================================================================== *)
(** ** What each piece of the program does to the state *)

Section Footprints.
Context {F : Type} {SF : Scalar F}.
Variable cfg : Config F.
Variable rng : Rng F.
Implicit Types (st : State F) (i j k : Z).

(** The four arrays have [NUM_LEDS] cells, as the SETUP block makes them. *)
Definition wf st : Prop :=
  Z.of_nat (length (star_current st)) = NUM_LEDS cfg /\
  Z.of_nat (length (star_target st)) = NUM_LEDS cfg /\
  Z.of_nat (length (star_hue st)) = NUM_LEDS cfg /\
  Z.of_nat (length (star_sat st)) = NUM_LEDS cfg.

Definition on_strip i : Prop := (0 <= i < NUM_LEDS cfg)%Z.

(** The value [random_star_brightness] makes of the draw [u] of
    [random()]. *)
Definition star_brightness (u : F) : F :=
  let x := (of_int 0 + (of_int 1 - of_int 0) * u)%S in
  let x := (x * x)%S in
  (STAR_MIN_BRIGHT cfg + x * (STAR_MAX_BRIGHT cfg - STAR_MIN_BRIGHT cfg))%S.

Lemma random_star_brightness_spec st :
  random_star_brightness cfg rng st =
  Ok (star_brightness (unit_draw rng (rng_calls st)),
      with_rng_calls st (S (rng_calls st))).
Proof. reflexivity. Qed.

Lemma new_target_inv i st st' :
  new_target cfg rng i st = Ok (tt, st') ->
  star_current st' = star_current st /\ star_hue st' = star_hue st /\
  star_sat st' = star_sat st /\ events st' = events st /\
  ((fltb (unit_draw rng (rng_calls st)) (STAR_NEW_TARGET_CHANCE cfg) = false /\
    star_target st' = star_target st /\ rng_calls st' = S (rng_calls st)) \/
   (fltb (unit_draw rng (rng_calls st)) (STAR_NEW_TARGET_CHANCE cfg) = true /\
    setitem (star_target st) i
      (star_brightness (unit_draw rng (S (rng_calls st)))) =
    Some (star_target st') /\ rng_calls st' = S (S (rng_calls st)))).
Proof.
  unfold new_target, random, bind; simpl.
  destruct (fltb _ _) eqn:Er.
  - unfold set_target, store; simpl. fold (star_brightness (unit_draw rng (S (rng_calls st)))).
    destruct (setitem _ _ _) eqn:Es; intros E; inversion E; subst; simpl.
    repeat split; auto.
  - unfold ret; intros E; inversion E; subst; simpl. repeat split; auto.
Qed.

Lemma star_update_inv j st st' :
  star_update cfg rng j st = Ok (tt, st') ->
  exists st1 c t,
    new_target cfg rng j st = Ok (tt, st1) /\
    getitem (star_current st1) j = Some c /\
    getitem (star_target st1) j = Some t /\
    setitem (star_current st1) j (ease cfg c t) = Some (star_current st') /\
    st' = with_current st1 (star_current st').
Proof.
  unfold star_update, bind.
  destruct (new_target cfg rng j st) as [[[] st1]| |]; try (intros E0; discriminate E0).
  unfold get_current, get_target, set_current, load, store.
  destruct (getitem (star_current st1) j) as [c|] eqn:Ec;
    try (intros E0; discriminate E0).
  destruct (getitem (star_target st1) j) as [t|] eqn:Et;
    try (intros E0; discriminate E0).
  destruct (setitem (star_current st1) j (ease cfg c t)) as [l|] eqn:Es;
    intros E; inversion E; subst; simpl.
  exists st1, c, t; repeat split; auto.
Qed.

Lemma draw_star_spec i st :
  draw_star i st =
  match getitem (star_hue st) i, getitem (star_sat st) i,
        getitem (star_current st) i with
  | Some h, Some s, Some c =>
      Ok (tt, with_events st (events st ++ [SetHsv i h s c]))
  | _, _, _ => Raised IndexError
  end.
Proof.
  unfold draw_star, get_hue, get_sat, get_current, set_hsv, emit, load, bind.
  destruct (getitem (star_hue st) i); [|reflexivity].
  destruct (getitem (star_sat st) i); [|reflexivity].
  destruct (getitem (star_current st) i); reflexivity.
Qed.

(** The fused body is the update of the star followed by its drawing. *)
Lemma update_star_split i st :
  update_star cfg rng i st =
  bind (star_update cfg rng i) (fun _ => draw_star i) st.
Proof.
  unfold update_star, star_update, draw_star, bind.
  destruct (new_target cfg rng i st) as [[[] st2]| |]; try reflexivity.
  destruct (get_current i st2) as [[c st3]| |]; try reflexivity.
  destruct (get_target i st3) as [[t st4]| |]; try reflexivity.
  destruct (set_current i (ease cfg c t) st4) as [[[] st5]| |] eqn:E;
    try reflexivity.
  destruct (get_hue i st5) as [[h st6]| |] eqn:Eh; try reflexivity.
  destruct (get_sat i st6) as [[s st7]| |] eqn:Es; try reflexivity.
  unfold get_hue, get_sat, load in Eh, Es.
  destruct (getitem (star_hue st5) i); inversion Eh; subst.
  destruct (getitem (star_sat st6) i); inversion Es; subst.
  unfold set_current, store in E.
  destruct (setitem (star_current st4) i (ease cfg c t)) eqn:E';
    inversion E; subst.
  unfold get_current, load; simpl.
  rewrite (getitem_setitem_same _ _ _ E'). reflexivity.
Qed.

Lemma update_star_inv j st st' :
  update_star cfg rng j st = Ok (tt, st') ->
  exists st1 st2 c t h s,
    new_target cfg rng j st = Ok (tt, st1) /\
    getitem (star_current st1) j = Some c /\
    getitem (star_target st1) j = Some t /\
    setitem (star_current st1) j (ease cfg c t) = Some (star_current st2) /\
    st2 = with_current st1 (star_current st2) /\
    getitem (star_hue st1) j = Some h /\ getitem (star_sat st1) j = Some s /\
    st' = with_events st2 (events st2 ++ [SetHsv j h s (ease cfg c t)]).
Proof.
  rewrite update_star_split; unfold bind.
  destruct (star_update cfg rng j st) as [[[] st2]| |] eqn:E; try (intros E0; discriminate E0).
  apply star_update_inv in E; destruct E as (st1 & c & t & E1 & Ec & Et & Es & E2).
  rewrite draw_star_spec.
  assert (Hh : star_hue st2 = star_hue st1) by (rewrite E2; reflexivity).
  assert (Hs : star_sat st2 = star_sat st1) by (rewrite E2; reflexivity).
  rewrite Hh, Hs, (getitem_setitem_same _ _ _ Es).
  destruct (getitem (star_hue st1) j) as [h|] eqn:Eh;
    try (intros E0; discriminate E0).
  destruct (getitem (star_sat st1) j) as [s|] eqn:Esat;
    try (intros E0; discriminate E0).
  intros E; inversion E; subst st'.
  exists st1, st2, c, t, h, s; repeat split; auto.
Qed.
End Footprints.

(* ================================================================== *)
(** ** Every step succeeds on arrays of [NUM_LEDS] cells *)

Section Success.
Context {F : Type} {SF : Scalar F}.
Variable cfg : Config F.
Variable rng : Rng F.
Implicit Types (st : State F) (i j k : Z).

Lemma wf_getitem st j :
  wf cfg st -> on_strip cfg j ->
  (exists c, getitem (star_current st) j = Some c) /\
  (exists t, getitem (star_target st) j = Some t) /\
  (exists h, getitem (star_hue st) j = Some h) /\
  (exists s, getitem (star_sat st) j = Some s).
Proof.
  intros (Hc & Ht & Hh & Hs) Hj; unfold on_strip in Hj.
  repeat split; apply getitem_on_strip; lia.
Qed.

Lemma wf_with_current st l :
  wf cfg st -> length l = length (star_current st) -> wf cfg (with_current st l).
Proof. intros (Hc & Ht & Hh & Hs) Hl; repeat split; simpl; auto; lia. Qed.

Lemma wf_with_events st ev : wf cfg st -> wf cfg (with_events st ev).
Proof. intros H; exact H. Qed.

Lemma new_target_ok j st :
  wf cfg st -> on_strip cfg j ->
  exists st', new_target cfg rng j st = Ok (tt, st') /\ wf cfg st'.
Proof.
  intros Hwf Hj.
  destruct (wf_getitem Hwf Hj) as (_ & (t & Et) & _).
  unfold new_target, random, bind; simpl.
  destruct (fltb _ _).
  - unfold set_target, store; simpl.
    match goal with |- context [setitem ?l ?i ?v] =>
      destruct (getitem_Some_setitem _ _ v Et) as (l' & El) end.
    rewrite El; eexists; split; [reflexivity|].
    destruct Hwf as (Hc & Ht & Hh & Hs); repeat split; simpl; auto.
    rewrite (setitem_length _ _ _ El); assumption.
  - eexists; split; [reflexivity|exact Hwf].
Qed.

Lemma star_update_ok j st :
  wf cfg st -> on_strip cfg j ->
  exists st', star_update cfg rng j st = Ok (tt, st') /\ wf cfg st'.
Proof.
  intros Hwf Hj.
  destruct (new_target_ok Hwf Hj) as (st1 & E1 & Hwf1).
  destruct (wf_getitem Hwf1 Hj) as ((c & Ec) & (t & Et) & _).
  destruct (getitem_Some_setitem _ _ (ease cfg c t) Ec) as (l & El).
  unfold star_update, bind; rewrite E1.
  unfold get_current, get_target, set_current, load, store.
  rewrite Ec, Et, El.
  eexists; split; [reflexivity|].
  apply wf_with_current; [assumption|eapply setitem_length; eassumption].
Qed.

Lemma draw_star_ok j st :
  wf cfg st -> on_strip cfg j ->
  exists h s c,
    draw_star j st = Ok (tt, with_events st (events st ++ [SetHsv j h s c])).
Proof.
  intros Hwf Hj.
  destruct (wf_getitem Hwf Hj) as ((c & Ec) & _ & (h & Eh) & (s & Es)).
  rewrite draw_star_spec, Eh, Es, Ec; eauto.
Qed.

Lemma update_star_ok j st :
  wf cfg st -> on_strip cfg j ->
  exists st', update_star cfg rng j st = Ok (tt, st') /\ wf cfg st'.
Proof.
  intros Hwf Hj.
  destruct (star_update_ok Hwf Hj) as (st1 & E1 & Hwf1).
  destruct (draw_star_ok Hwf1 Hj) as (h & s & c & E2).
  rewrite update_star_split; unfold bind; rewrite E1, E2.
  eexists; split; [reflexivity|exact Hwf1].
Qed.

Lemma update_stars_ok st :
  wf cfg st ->
  exists st', update_stars cfg rng st = Ok (tt, st') /\ wf cfg st'.
Proof.
  intros Hwf; unfold update_stars.
  apply (for_each_ok (wf cfg)); [|assumption].
  intros x st0 Hx; apply range_spec in Hx.
  intros H0; apply update_star_ok; assumption.
Qed.

Lemma draw_background_ok st :
  wf cfg st ->
  exists evs, draw_background cfg st = Ok (tt, with_events st (events st ++ evs)).
Proof.
  intros Hwf; unfold draw_background.
  set (P := fun s : State F => exists evs, s = with_events st (events st ++ evs)).
  assert (Hb : forall x s, In x (range (NUM_LEDS cfg)) -> P s ->
               exists s', draw_star x s = Ok (tt, s') /\ P s').
  { intros x s Hx (evs & ->); apply range_spec in Hx.
    destruct (@draw_star_ok x (with_events st (events st ++ evs)))
      as (h & sa & c & E); [exact Hwf|exact Hx|].
    rewrite E; eexists; split; [reflexivity|].
    exists (evs ++ [SetHsv x h sa c]); simpl; rewrite app_assoc; reflexivity. }
  assert (H0 : P st) by (exists []; rewrite app_nil_r; destruct st; reflexivity).
  destruct (for_each_ok P _ _ Hb _ H0) as (st' & E & evs & ->).
  exists evs; exact E.
Qed.

(** Lines 153-169, read off the code. *)
Lemma draw_trail_inv trail_len direction head_brightness head k st st' :
  draw_trail cfg trail_len direction head_brightness head k st = Ok (tt, st') ->
  let pos := (head - k * direction)%Z in
  (~ on_strip cfg pos /\ st' = st) \/
  (on_strip cfg pos /\
   exists c l,
     getitem (star_current st) pos = Some c /\
     setitem (star_current st) pos
       (py_min (c + comet_b head_brightness trail_len k * AFTERGLOW_MAX cfg)%S
               (STAR_MAX_BRIGHT cfg)) = Some l /\
     st' = with_current
             (with_events st
                (events st ++
                 [SetHsv pos (COMET_HUE cfg) (tail_sat cfg trail_len k)
                    (comet_b head_brightness trail_len k)])) l).
Proof.
  intros E; cbv zeta; unfold draw_trail in E.
  set (pos := (head - k * direction)%Z) in *; unfold on_strip.
  destruct (Z.leb_spec 0 pos); destruct (Z.ltb_spec pos (NUM_LEDS cfg));
    simpl in E; try (left; split; [lia|unfold ret in E; congruence]).
  right; split; [lia|].
  unfold bind, set_hsv, emit, get_current, set_current, load, store in E;
    simpl in E.
  destruct (getitem (star_current st) pos) as [c|] eqn:Ec; try discriminate.
  simpl in E.
  match type of E with context [setitem ?a ?b ?v] =>
    destruct (setitem a b v) as [l|] eqn:El; try discriminate end.
  inversion E; subst st'; exists c, l; auto.
Qed.

Lemma draw_trail_ok trail_len direction head_brightness head k st :
  wf cfg st ->
  exists st',
    draw_trail cfg trail_len direction head_brightness head k st = Ok (tt, st')
    /\ wf cfg st'.
Proof.
  intros Hwf; unfold draw_trail.
  set (pos := (head - k * direction)%Z).
  destruct (Z.leb_spec 0 pos); destruct (Z.ltb_spec pos (NUM_LEDS cfg));
    simpl; try (exists st; split; [reflexivity|assumption]).
  assert (Hp : on_strip cfg pos) by (unfold on_strip; lia).
  destruct (wf_getitem Hwf Hp) as ((c & Ec) & _).
  unfold bind, set_hsv, emit, get_current, set_current, load, store; simpl.
  rewrite Ec.
  match goal with |- context [setitem _ _ ?v] =>
    destruct (getitem_Some_setitem _ _ v Ec) as (l' & El) end.
  change (star_current (with_events st _)) with (star_current st).
  rewrite El; eexists; split; [reflexivity|].
  apply wf_with_current; [exact Hwf|eapply setitem_length; eassumption].
Qed.

Lemma comet_frame_ok trail_len direction comet_delay head_brightness head st :
  wf cfg st ->
  exists st',
    comet_frame cfg trail_len direction comet_delay head_brightness head st
      = Ok (tt, st') /\ wf cfg st'.
Proof.
  intros Hwf; unfold comet_frame, bind.
  destruct (draw_background_ok Hwf) as (evs & ->).
  assert (Hb : forall x s, In x (range trail_len) -> wf cfg s ->
               exists s', draw_trail cfg trail_len direction head_brightness
                            head x s = Ok (tt, s') /\ wf cfg s')
    by (intros; apply draw_trail_ok; assumption).
  destruct (for_each_ok (wf cfg) _ _ Hb _
              (wf_with_events (events st ++ evs) Hwf)) as (st2 & -> & Hwf2).
  eexists; split; [reflexivity|exact Hwf2].
Qed.
End Success.

(* ================================================================== *)
(** ** The effects of each piece of the program *)

Section Effects.
Context {F : Type} {SF : Scalar F}.
Variable cfg : Config F.
Variable rng : Rng F.
Implicit Types (st : State F) (i j k : Z) (e : event F).

(** A write to the driver, at an index of the strip. *)
Definition strip_write e : Prop :=
  match e with
  | SetHsv i _ _ _ => on_strip cfg i
  | _ => False
  end.

(** No write to the driver outside the strip. *)
Definition led_ok e : Prop :=
  match e with
  | SetHsv i _ _ _ => on_strip cfg i
  | _ => True
  end.

Definition is_sleep e : bool :=
  match e with
  | Sleep _ => true
  | _ => false
  end.

(** The number of calls of [time.sleep] among the effects. *)
Definition sleeps (evs : list (event F)) : nat := length (filter is_sleep evs).

Lemma strip_write_led_ok e : strip_write e -> led_ok e.
Proof. destruct e; simpl; auto. Qed.

Lemma strip_write_not_sleep evs : Forall strip_write evs -> sleeps evs = 0%nat.
Proof.
  unfold sleeps; induction 1 as [|e evs He _ IH]; [reflexivity|].
  destruct e; simpl in *; try contradiction; assumption.
Qed.

Lemma sleeps_app evs1 evs2 : sleeps (evs1 ++ evs2) = (sleeps evs1 + sleeps evs2)%nat.
Proof. unfold sleeps; rewrite filter_app, length_app; reflexivity. Qed.

(** The effects of a loop are those of its turns. *)
Lemma for_each_emits A (P : event F -> Prop) (l : list A) body :
  (forall x st st', In x l -> body x st = Ok (tt, st') ->
     exists evs, events st' = events st ++ evs /\ Forall P evs) ->
  forall st st', for_each l body st = Ok (tt, st') ->
     exists evs, events st' = events st ++ evs /\ Forall P evs.
Proof.
  intros Hb st st' E.
  apply (for_each_inv
           (fun s => exists evs, events s = events st ++ evs /\ Forall P evs)
           l body) with (st := st); [| |exact E].
  - intros x s s' Hx (evs & Es & Hevs) Ex.
    destruct (Hb x s s' Hx Ex) as (evs' & Es' & Hevs').
    exists (evs ++ evs'); split; [|apply Forall_app; auto].
    rewrite Es', Es, app_assoc; reflexivity.
  - exists []; split; [rewrite app_nil_r; reflexivity|constructor].
Qed.

Lemma draw_star_emits i st st' :
  on_strip cfg i -> draw_star i st = Ok (tt, st') ->
  exists evs, events st' = events st ++ evs /\ Forall strip_write evs.
Proof.
  intros Hi; rewrite draw_star_spec.
  destruct (getitem (star_hue st) i); try discriminate.
  destruct (getitem (star_sat st) i); try discriminate.
  destruct (getitem (star_current st) i); try discriminate.
  intros E; inversion E; subst; simpl.
  eexists; split; [reflexivity|]. constructor; [exact Hi|constructor].
Qed.

Lemma update_star_emits i st st' :
  on_strip cfg i -> update_star cfg rng i st = Ok (tt, st') ->
  exists evs, events st' = events st ++ evs /\ Forall strip_write evs.
Proof.
  intros Hi E; apply update_star_inv in E.
  destruct E as (st1 & st2 & c & t & h & s & E1 & _ & _ & _ & E2 & _ & _ & ->).
  apply new_target_inv in E1; destruct E1 as (_ & _ & _ & Ev & _).
  simpl. rewrite E2; simpl; rewrite Ev.
  eexists; split; [reflexivity|]. constructor; [exact Hi|constructor].
Qed.

Lemma draw_trail_emits trail_len direction head_brightness head k st st' :
  draw_trail cfg trail_len direction head_brightness head k st = Ok (tt, st') ->
  exists evs, events st' = events st ++ evs /\ Forall strip_write evs.
Proof.
  intros E; apply draw_trail_inv in E.
  destruct E as [(_ & ->)|(Hp & c & l & _ & _ & ->)].
  - exists []; split; [rewrite app_nil_r; reflexivity|constructor].
  - simpl; eexists; split; [reflexivity|]. constructor; [exact Hp|constructor].
Qed.

(** The effects of [update_stars]: writes to the driver, all on the
    strip. *)
Lemma update_stars_emits st st' :
  update_stars cfg rng st = Ok (tt, st') ->
  exists evs, events st' = events st ++ evs /\ Forall strip_write evs.
Proof.
  apply for_each_emits; intros x s s' Hx; apply range_spec in Hx.
  apply update_star_emits; exact Hx.
Qed.

(** The effects of a sub-frame: writes on the strip, then one sleep. *)
Lemma comet_frame_emits trail_len direction comet_delay head_brightness head
    st st' :
  comet_frame cfg trail_len direction comet_delay head_brightness head st
    = Ok (tt, st') ->
  exists evs,
    events st' = events st ++ evs ++ [Sleep comet_delay] /\
    Forall strip_write evs.
Proof.
  unfold comet_frame, bind.
  destruct (draw_background cfg st) as [[[] st1]| |] eqn:E1; try discriminate.
  destruct (for_each _ _ st1) as [[[] st2]| |] eqn:E2; try discriminate.
  unfold sleep, emit; intros E; inversion E; subst st'; simpl.
  apply for_each_emits with (P := strip_write) in E1;
    [|intros x s s' Hx; apply range_spec in Hx; apply draw_star_emits; exact Hx].
  apply for_each_emits with (P := strip_write) in E2;
    [|intros x s s' _; apply draw_trail_emits].
  destruct E1 as (evs1 & Ee1 & H1), E2 as (evs2 & Ee2 & H2).
  exists (evs1 ++ evs2); split; [|apply Forall_app; auto].
  rewrite Ee2, Ee1, <- !app_assoc; reflexivity.
Qed.

(** The effects of the [while] loop: as many sleeps as sub-frames, and
    writes on the strip. *)
Lemma comet_loop_emits fuel trail_len direction comet_delay head_brightness
    end_ step :
  forall head st heads st',
  comet_loop cfg fuel trail_len direction comet_delay head_brightness
    head end_ step st = Ok (heads, st') ->
  exists evs,
    events st' = events st ++ evs /\ Forall led_ok evs /\
    sleeps evs = length heads.
Proof.
  induction fuel as [|fuel IH]; intros head st heads st'; simpl;
    destruct (Z.eqb_spec head end_) as [Hh|Hh]; unfold ret;
    try (intros E; inversion E; subst; exists [];
         rewrite app_nil_r; repeat split; constructor);
    try discriminate.
  unfold bind.
  destruct (comet_frame _ _ _ _ _ _ st) as [[[] st1]| |] eqn:E1;
    try discriminate.
  destruct (comet_loop _ _ _ _ _ _ _ _ _ st1) as [[rest st2]| |] eqn:E2;
    try discriminate.
  intros E; inversion E; subst heads st'; clear E.
  apply comet_frame_emits in E1; destruct E1 as (evs1 & Ee1 & H1).
  apply IH in E2; destruct E2 as (evs2 & Ee2 & H2 & Hs).
  exists ((evs1 ++ [Sleep comet_delay]) ++ evs2); repeat split.
  - rewrite Ee2, Ee1, <- !app_assoc; reflexivity.
  - apply Forall_app; split; [apply Forall_app; split|exact H2].
    + eapply Forall_impl; [apply strip_write_led_ok|exact H1].
    + constructor; [exact I|constructor].
  - rewrite !sleeps_app, (strip_write_not_sleep H1), Hs; simpl; reflexivity.
Qed.
End Effects.

(* ================================================================== *)
(** ** The traversal of a comet *)

(** [n] values from [head] on, [step] apart. *)
Definition progression (head step : Z) (n : nat) : list Z :=
  map (fun j => (head + Z.of_nat j * step)%Z) (seq 0 n).

Lemma progression_S head step n :
  progression head step (S n) = head :: progression (head + step) step n.
Proof.
  unfold progression; simpl. rewrite <- seq_shift, map_map.
  f_equal; [lia|]. apply map_ext; intros; lia.
Qed.

Lemma progression_length head step n : length (progression head step n) = n.
Proof. unfold progression; rewrite length_map, length_seq; reflexivity. Qed.

Lemma progression_In head step n h :
  In h (progression head step n) <->
  exists j, (j < n)%nat /\ h = (head + Z.of_nat j * step)%Z.
Proof.
  unfold progression; rewrite in_map_iff; split.
  - intros (j & <- & Hj); apply in_seq in Hj; exists j; split; [lia|reflexivity].
  - intros (j & Hj & ->); exists j; split; [reflexivity|apply in_seq; lia].
Qed.

Lemma progression_NoDup head step n :
  step <> 0%Z -> NoDup (progression head step n).
Proof.
  intros Hs; unfold progression.
  apply Injective_map_NoDup; [|apply seq_NoDup].
  intros a b E; nia.
Qed.

Section Traversal.
Context {F : Type} {SF : Scalar F}.
Variable cfg : Config F.
Implicit Types (st : State F).

Lemma comet_loop_S fuel trail_len direction comet_delay head_brightness
    head end_ step :
  comet_loop cfg (S fuel) trail_len direction comet_delay head_brightness
    head end_ step =
  if (head =? end_)%Z then ret []
  else bind (comet_frame cfg trail_len direction comet_delay head_brightness head)
         (fun _ =>
          bind (comet_loop cfg fuel trail_len direction comet_delay
                  head_brightness (head + step)%Z end_ step)
            (fun rest => ret (head :: rest))).
Proof. reflexivity. Qed.

Lemma comet_loop_O trail_len direction comet_delay head_brightness
    head end_ step :
  comet_loop cfg O trail_len direction comet_delay head_brightness
    head end_ step =
  if (head =? end_)%Z then ret [] else fun _ => OutOfFuel.
Proof. reflexivity. Qed.

(** With enough fuel the loop runs one sub-frame at each value of the
    progression from [head] to the exit bound, and returns. *)
Lemma comet_loop_run trail_len direction comet_delay head_brightness
    end_ step n :
  step <> 0%Z ->
  forall fuel head st,
  end_ = (head + Z.of_nat n * step)%Z ->
  wf cfg st -> (n <= fuel)%nat ->
  exists st',
    comet_loop cfg fuel trail_len direction comet_delay head_brightness
      head end_ step st
    = Ok (progression head step n, st') /\ wf cfg st'.
Proof.
  intros Hs; induction n as [|n IH]; intros fuel head st He Hwf Hn.
  - assert (E : (head =? end_)%Z = true) by (apply Z.eqb_eq; lia).
    destruct fuel; [rewrite comet_loop_O|rewrite comet_loop_S];
      rewrite E; exists st; split; auto.
  - destruct fuel as [|fuel]; [lia|]. rewrite comet_loop_S.
    assert (E : (head =? end_)%Z = false) by (apply Z.eqb_neq; nia).
    rewrite E.
    destruct (comet_frame_ok trail_len direction comet_delay head_brightness
                head Hwf) as (st1 & E1 & Hwf1).
    destruct (IH fuel (head + step)%Z st1) as (st2 & E2 & Hwf2);
      [lia|exact Hwf1|lia|].
    unfold bind; rewrite E1, E2; unfold ret.
    exists st2; split; [rewrite progression_S; reflexivity|exact Hwf2].
Qed.

(** With less fuel than sub-frames, the fuel runs out. *)
Lemma comet_loop_short trail_len direction comet_delay head_brightness
    end_ step n :
  step <> 0%Z ->
  forall fuel head st,
  end_ = (head + Z.of_nat n * step)%Z ->
  wf cfg st -> (fuel < n)%nat ->
  comet_loop cfg fuel trail_len direction comet_delay head_brightness
    head end_ step st = OutOfFuel.
Proof.
  intros Hs; induction n as [|n IH]; intros fuel head st He Hwf Hn; [lia|].
  assert (E : (head =? end_)%Z = false) by (apply Z.eqb_neq; nia).
  destruct fuel as [|fuel];
    [rewrite comet_loop_O|rewrite comet_loop_S]; rewrite E; [reflexivity|].
  destruct (comet_frame_ok trail_len direction comet_delay head_brightness
              head Hwf) as (st1 & E1 & Hwf1).
  unfold bind; rewrite E1.
  rewrite (IH fuel (head + step)%Z st1); [reflexivity|lia|exact Hwf1|lia].
Qed.

(** The number of sub-frames of a comet of trail length [trail_len]. *)
Definition sub_frames (trail_len : Z) : nat :=
  Z.to_nat (NUM_LEDS cfg + 2 * trail_len).

Lemma wf_NUM_LEDS st : wf cfg st -> (0 <= NUM_LEDS cfg)%Z.
Proof. intros (H & _); lia. Qed.

Lemma fly_comet_forward fuel trail_len comet_delay head_brightness st :
  (0 <= trail_len)%Z -> wf cfg st -> (sub_frames trail_len <= fuel)%nat ->
  exists st',
    fly_comet cfg fuel trail_len 1 comet_delay head_brightness st
    = Ok (progression (- trail_len) 1 (sub_frames trail_len), st') /\
    wf cfg st'.
Proof.
  intros HL Hwf Hf; pose proof (wf_NUM_LEDS Hwf) as HN.
  unfold fly_comet; simpl.
  apply comet_loop_run; auto; unfold sub_frames; lia.
Qed.

Lemma fly_comet_backward fuel trail_len direction comet_delay head_brightness st :
  direction <> 1%Z ->
  (0 <= trail_len)%Z -> wf cfg st -> (sub_frames trail_len <= fuel)%nat ->
  exists st',
    fly_comet cfg fuel trail_len direction comet_delay head_brightness st
    = Ok (progression (NUM_LEDS cfg + trail_len) (-1) (sub_frames trail_len),
          st') /\
    wf cfg st'.
Proof.
  intros Hd HL Hwf Hf; pose proof (wf_NUM_LEDS Hwf) as HN.
  unfold fly_comet.
  destruct (Z.eqb_spec direction 1) as [E|_]; [contradiction|].
  apply comet_loop_run; auto; unfold sub_frames; lia.
Qed.

Lemma fly_comet_short fuel trail_len direction comet_delay head_brightness st :
  (0 <= trail_len)%Z -> wf cfg st -> (fuel < sub_frames trail_len)%nat ->
  fly_comet cfg fuel trail_len direction comet_delay head_brightness st
  = OutOfFuel.
Proof.
  intros HL Hwf Hf; pose proof (wf_NUM_LEDS Hwf) as HN.
  unfold fly_comet.
  destruct (Z.eqb_spec direction 1) as [E|_].
  - apply comet_loop_short with (n := sub_frames trail_len); auto;
      unfold sub_frames in *; lia.
  - apply comet_loop_short with (n := sub_frames trail_len); auto;
      unfold sub_frames in *; lia.
Qed.
End Traversal.


(* ================================================================== *)
(** ** Updating all the stars, then drawing them *)

Section Fusion.
Context {F : Type} {SF : Scalar F}.
Variable cfg : Config F.
Variable rng : Rng F.
Implicit Types (st : State F) (i j : Z) (l : list Z).

Lemma bind_assoc (A B C : Type) (m : M F A) (f : A -> M F B)
    (g : B -> M F C) st :
  bind (bind m f) g st = bind m (fun x => bind (f x) g) st.
Proof.
  unfold bind; destruct (m st) as [[a s]| |]; reflexivity.
Qed.

Lemma bind_ext_l (A B : Type) (m m' : M F A) (f : A -> M F B) st :
  m st = m' st -> bind m f st = bind m' f st.
Proof.
  unfold bind; intros ->; reflexivity.
Qed.

Lemma bind_ext_r (A B : Type) (m : M F A) (f f' : A -> M F B) st :
  (forall a s, f a s = f' a s) -> bind m f st = bind m f' st.
Proof.
  unfold bind; intros H; destruct (m st) as [[a s]| |]; auto.
Qed.

(** The result of a computation, its effects replaced by [evs]. *)
Definition map_events (evs : list (event F)) (r : result (unit * State F))
  : result (unit * State F) :=
  match r with
  | Ok (a, s) => Ok (a, with_events s evs)
  | Raised e => Raised e
  | OutOfFuel => OutOfFuel
  end.

(** The update of a star neither reads nor writes the effects. *)
Lemma star_update_with_events j st evs :
  star_update cfg rng j (with_events st evs)
  = map_events evs (star_update cfg rng j st).
Proof.
  unfold star_update, new_target, random_star_brightness, uniform, random,
    get_current, get_target, set_current, set_target, load, store, bind, ret;
    simpl.
  destruct (fltb _ _); simpl.
  - destruct (setitem (star_target st) j _); simpl; [|reflexivity].
    destruct (getitem (star_current st) j); simpl; [|reflexivity].
    destruct (getitem _ j); simpl; [|reflexivity].
    destruct (setitem (star_current st) j _); reflexivity.
  - destruct (getitem (star_current st) j); simpl; [|reflexivity].
    destruct (getitem (star_target st) j); simpl; [|reflexivity].
    destruct (setitem (star_current st) j _); reflexivity.
Qed.

Lemma star_updates_with_events l st evs :
  for_each l (star_update cfg rng) (with_events st evs)
  = map_events evs (for_each l (star_update cfg rng) st).
Proof.
  revert st; induction l as [|j l IH]; intros st; simpl; [reflexivity|].
  unfold bind; rewrite star_update_with_events.
  destruct (star_update cfg rng j st) as [[[] s]| |]; simpl; auto.
Qed.

(** The update of star [j] leaves the hues, the saturations, the effects
    and the brightness of the other stars as they are. *)
Lemma star_update_frame j st st' :
  star_update cfg rng j st = Ok (tt, st') ->
  star_hue st' = star_hue st /\ star_sat st' = star_sat st /\
  events st' = events st /\
  forall i, (0 <= i)%Z -> (0 <= j)%Z -> i <> j ->
    getitem (star_current st') i = getitem (star_current st) i.
Proof.
  intros E; apply star_update_inv in E.
  destruct E as (st1 & c & t & E1 & _ & _ & Es & ->).
  apply new_target_inv in E1; destruct E1 as (Hc & Hh & Hs & He & _).
  simpl; repeat split; auto.
  intros i Hi Hj Hij; rewrite <- Hc.
  eapply getitem_setitem_other; eauto.
Qed.

Lemma star_updates_frame l st st' :
  Forall (fun j => 0 <= j)%Z l ->
  for_each l (star_update cfg rng) st = Ok (tt, st') ->
  star_hue st' = star_hue st /\ star_sat st' = star_sat st /\
  events st' = events st /\
  forall i, (0 <= i)%Z -> ~ In i l ->
    getitem (star_current st') i = getitem (star_current st) i.
Proof.
  intros Hl; revert st; induction Hl as [|j l Hj Hl IH]; intros st; simpl.
  - unfold ret; intros E; inversion E; subst; auto.
  - unfold bind.
    destruct (star_update cfg rng j st) as [[[] s]| |] eqn:E1;
      try (intros E0; discriminate E0).
    intros E2; apply IH in E2; apply star_update_frame in E1.
    destruct E1 as (Hh1 & Hs1 & He1 & Hc1), E2 as (Hh2 & Hs2 & He2 & Hc2).
    repeat split; try congruence.
    intros i Hi Hn; rewrite Hc2, Hc1; auto.
Qed.

(** The only way the updates fail is [IndexError]. *)
Lemma star_update_fails j st :
  match star_update cfg rng j st with
  | Ok _ | Raised IndexError => True
  | _ => False
  end.
Proof.
  unfold star_update, new_target, random_star_brightness, uniform, random,
    get_current, get_target, set_current, set_target, load, store, bind, ret;
    simpl.
  destruct (fltb _ _); simpl.
  - destruct (setitem (star_target st) j _); simpl; [|exact I].
    destruct (getitem (star_current st) j); simpl; [|exact I].
    destruct (getitem _ j); simpl; [|exact I].
    destruct (setitem (star_current st) j _); exact I.
  - destruct (getitem (star_current st) j); simpl; [|exact I].
    destruct (getitem (star_target st) j); simpl; [|exact I].
    destruct (setitem (star_current st) j _); exact I.
Qed.

Lemma star_updates_fail l st :
  match for_each l (star_update cfg rng) st with
  | Ok _ | Raised IndexError => True
  | _ => False
  end.
Proof.
  revert st; induction l as [|j l IH]; intros st; simpl; [exact I|].
  unfold bind; pose proof (star_update_fails j st) as H.
  destruct (star_update cfg rng j st) as [[[] s]|[]|];
    [apply IH|exact I|contradiction|contradiction].
Qed.

(** Drawing star [i] and updating other stars can be done in either
    order. *)
Lemma draw_star_star_updates i l st :
  (0 <= i)%Z -> Forall (fun j => 0 <= j)%Z l -> ~ In i l ->
  bind (draw_star i) (fun _ => for_each l (star_update cfg rng)) st
  = bind (for_each l (star_update cfg rng)) (fun _ => draw_star i) st.
Proof.
  intros Hi Hl Hn; unfold bind.
  pose proof (star_updates_fail l st) as Hf.
  destruct (for_each l (star_update cfg rng) st) as [[[] s]|e|] eqn:E.
  - destruct (star_updates_frame _ Hl E) as (Hh & Hs & He & Hc).
    rewrite !draw_star_spec, Hh, Hs, He, (Hc i Hi Hn).
    destruct (getitem (star_hue st) i); [|reflexivity].
    destruct (getitem (star_sat st) i); [|reflexivity].
    destruct (getitem (star_current st) i); [|reflexivity].
    rewrite star_updates_with_events, E; reflexivity.
  - destruct e; [|contradiction].
    rewrite draw_star_spec.
    destruct (getitem (star_hue st) i); [|reflexivity].
    destruct (getitem (star_sat st) i); [|reflexivity].
    destruct (getitem (star_current st) i); [|reflexivity].
    rewrite star_updates_with_events, E; reflexivity.
  - contradiction.
Qed.

(** The fused loop over [l] is the loop of the updates followed by the loop
    of the drawings. *)
Lemma fused_loop_split l st :
  Forall (fun j => 0 <= j)%Z l -> NoDup l ->
  for_each l (update_star cfg rng) st
  = bind (for_each l (star_update cfg rng)) (fun _ => for_each l draw_star) st.
Proof.
  intros Hl Hd; revert st; induction Hl as [|i l Hi Hl IH]; intros st.
  - reflexivity.
  - inversion Hd as [|? ? Hn Hd']; subst.
    simpl for_each.
    assert (E : bind (update_star cfg rng i)
                  (fun _ => for_each l (update_star cfg rng)) st
              = bind (star_update cfg rng i)
                  (fun _ => bind (draw_star i)
                     (fun _ => bind (for_each l (star_update cfg rng))
                        (fun _ => for_each l draw_star))) st).
    { unfold bind at 1; rewrite update_star_split; unfold bind.
      destruct (star_update cfg rng i st) as [[[] s1]| |]; auto.
      destruct (draw_star i s1) as [[[] s2]| |]; auto. }
    rewrite E; clear E.
    rewrite (bind_assoc (star_update cfg rng i)
               (fun _ => for_each l (star_update cfg rng))).
    apply bind_ext_r; intros [] s1.
    rewrite <- (bind_assoc (draw_star i)
                  (fun _ => for_each l (star_update cfg rng))).
    rewrite <- (bind_assoc (for_each l (star_update cfg rng))
                  (fun _ => draw_star i)).
    apply bind_ext_l, draw_star_star_updates; assumption.
Qed.
End Fusion.

(* ================================================================== *)
(** ** The afterglow of a comet *)

Section Afterglow.
Context {F : Type} {SF : Scalar F}.
Variable cfg : Config F.
Implicit Types (st : State F) (k pos : Z).

(** Lines 167-169: the brightness the afterglow leaves at a star of
    brightness [c] under trail offset [k]. *)
Definition afterglow (head_brightness : F) (trail_len k : Z) (c : F) : F :=
  py_min (c + comet_b head_brightness trail_len k * AFTERGLOW_MAX cfg)%S
         (STAR_MAX_BRIGHT cfg).

(** The targets, hues and saturations of [st'] are those of [st]. *)
Definition same_sky st st' : Prop :=
  star_target st' = star_target st /\ star_hue st' = star_hue st /\
  star_sat st' = star_sat st.

Lemma same_sky_refl st : same_sky st st.
Proof. repeat split. Qed.

Lemma same_sky_trans st1 st2 st3 :
  same_sky st1 st2 -> same_sky st2 st3 -> same_sky st1 st3.
Proof. unfold same_sky; intros (? & ? & ?) (? & ? & ?); repeat split; congruence. Qed.

Lemma draw_trail_same_sky trail_len direction head_brightness head k st st' :
  draw_trail cfg trail_len direction head_brightness head k st = Ok (tt, st') ->
  same_sky st st'.
Proof.
  intros E; apply draw_trail_inv in E.
  destruct E as [(_ & ->)|(_ & c & l & _ & _ & ->)]; repeat split.
Qed.

(** Drawing the background changes no array. *)
Lemma draw_background_inv st st' :
  draw_background cfg st = Ok (tt, st') ->
  star_current st' = star_current st /\ same_sky st st'.
Proof.
  apply (for_each_inv
           (fun s => star_current s = star_current st /\ same_sky st s));
    [|split; [reflexivity|apply same_sky_refl]].
  intros x s s' _ (Hc & Hs); rewrite draw_star_spec.
  destruct (getitem (star_hue s) x); try discriminate.
  destruct (getitem (star_sat s) x); try discriminate.
  destruct (getitem (star_current s) x); try discriminate.
  intros E; inversion E; subst s'; simpl; split; assumption.
Qed.

(** The loop over the trail, offset by offset: the star under offset [k]
    receives the afterglow of [k], the stars under no offset keep their
    brightness. *)
Lemma trail_loop_inv trail_len direction head_brightness head ks :
  direction <> 0%Z -> NoDup ks ->
  forall st st',
  for_each ks (draw_trail cfg trail_len direction head_brightness head) st
    = Ok (tt, st') ->
  (forall k, In k ks -> on_strip cfg (head - k * direction) ->
     exists c,
       getitem (star_current st) (head - k * direction) = Some c /\
       getitem (star_current st') (head - k * direction)
       = Some (afterglow head_brightness trail_len k c)) /\
  (forall pos, (0 <= pos)%Z ->
     (forall k, In k ks -> on_strip cfg (head - k * direction) ->
        pos <> (head - k * direction)%Z) ->
     getitem (star_current st') pos = getitem (star_current st) pos).
Proof.
  intros Hd Hks; induction Hks as [|k0 ks Hn Hks IH]; intros st st'.
  - simpl; unfold ret; intros E; inversion E; subst; split.
    + intros k [].
    + reflexivity.
  - simpl for_each; unfold bind.
    destruct (draw_trail _ _ _ _ _ k0 st) as [[[] st1]| |] eqn:E1;
      try (intros E0; discriminate E0).
    intros E2; destruct (IH _ _ E2) as (IH1 & IH2); clear IH E2.
    apply draw_trail_inv in E1; cbv zeta in E1.
    destruct E1 as [(Hoff & ->)|(Hon & c & l & Ec & El & ->)].
    + split.
      * intros k [<-|Hk] Hp; [contradiction|auto].
      * intros pos Hpos Hfree; apply IH2; [assumption|].
        intros k Hk; apply Hfree; right; exact Hk.
    + simpl in IH1, IH2.
      assert (Hsep : forall k, In k ks ->
                (head - k0 * direction)%Z <> (head - k * direction)%Z).
      { intros k Hk Heq.
        assert (k = k0) by nia. subst k; contradiction. }
      split.
      * intros k [<-|Hk] Hp.
        -- exists c; split; [exact Ec|].
           rewrite IH2; [eapply getitem_setitem_same; exact El|apply Hon|].
           intros k Hk _; apply Hsep; exact Hk.
        -- destruct (IH1 k Hk Hp) as (c' & Ec' & Eg).
           exists c'; split; [|exact Eg].
           rewrite <- Ec'; symmetry.
           eapply getitem_setitem_other; [apply Hp|apply Hon| |exact El].
           intros Heq; apply (Hsep k Hk); symmetry; exact Heq.
      * intros pos Hpos Hfree.
        rewrite IH2; [|assumption|intros k Hk; apply Hfree; right; exact Hk].
        eapply getitem_setitem_other; [exact Hpos|apply Hon| |exact El].
        apply Hfree; [left; reflexivity|exact Hon].
Qed.

(** One sub-frame, read off the code. *)
Lemma comet_frame_inv trail_len direction comet_delay head_brightness head
    st st' :
  direction <> 0%Z ->
  comet_frame cfg trail_len direction comet_delay head_brightness head st
    = Ok (tt, st') ->
  same_sky st st' /\
  (forall k, (0 <= k < trail_len)%Z -> on_strip cfg (head - k * direction) ->
     exists c,
       getitem (star_current st) (head - k * direction) = Some c /\
       getitem (star_current st') (head - k * direction)
       = Some (afterglow head_brightness trail_len k c)) /\
  (forall pos, (0 <= pos)%Z ->
     (forall k, (0 <= k < trail_len)%Z -> on_strip cfg (head - k * direction) ->
        pos <> (head - k * direction)%Z) ->
     getitem (star_current st') pos = getitem (star_current st) pos).
Proof.
  intros Hd; unfold comet_frame, bind.
  destruct (draw_background cfg st) as [[[] st1]| |] eqn:E1; try discriminate.
  destruct (for_each _ _ st1) as [[[] st2]| |] eqn:E2; try discriminate.
  unfold sleep, emit; intros E; inversion E; subst st'; simpl; clear E.
  apply draw_background_inv in E1; destruct E1 as (Hc & Hs).
  assert (Hs2 : same_sky st1 st2).
  { revert E2; apply for_each_inv; [|apply same_sky_refl].
    intros x s s' _ H E; eapply same_sky_trans; [exact H|].
    eapply draw_trail_same_sky; exact E. }
  destruct (trail_loop_inv _ _ _ Hd (range_NoDup trail_len) _ E2) as (H1 & H2).
  rewrite Hc in H1, H2.
  split; [eapply same_sky_trans; eassumption|split].
  - intros k Hk; apply H1, range_spec, Hk.
  - intros pos Hpos Hfree; apply H2; [exact Hpos|].
    intros k Hk; apply Hfree, range_spec, Hk.
Qed.

(** No sub-frame of a comet touches a target, a hue or a saturation. *)
Lemma comet_frame_same_sky trail_len direction comet_delay head_brightness head
    st st' :
  comet_frame cfg trail_len direction comet_delay head_brightness head st
    = Ok (tt, st') ->
  same_sky st st'.
Proof.
  unfold comet_frame, bind.
  destruct (draw_background cfg st) as [[[] st1]| |] eqn:E1; try discriminate.
  destruct (for_each _ _ st1) as [[[] st2]| |] eqn:E2; try discriminate.
  unfold sleep, emit; intros E; inversion E; subst st'; simpl; clear E.
  apply draw_background_inv in E1; destruct E1 as (_ & Hs).
  change (same_sky st st2).
  eapply same_sky_trans; [exact Hs|].
  revert E2; apply for_each_inv; [|apply same_sky_refl].
  intros x s s' _ H E; eapply same_sky_trans; [exact H|].
  eapply draw_trail_same_sky; exact E.
Qed.

Lemma comet_loop_same_sky fuel trail_len direction comet_delay head_brightness
    end_ step :
  forall head st heads st',
  comet_loop cfg fuel trail_len direction comet_delay head_brightness
    head end_ step st = Ok (heads, st') ->
  same_sky st st'.
Proof.
  induction fuel as [|fuel IH]; intros head st heads st'; simpl;
    destruct (Z.eqb_spec head end_) as [Hh|Hh]; unfold ret;
    try (intros E; inversion E; subst; apply same_sky_refl);
    try discriminate.
  unfold bind.
  destruct (comet_frame _ _ _ _ _ _ st) as [[[] st1]| |] eqn:E1;
    try discriminate.
  destruct (comet_loop _ _ _ _ _ _ _ _ _ st1) as [[rest st2]| |] eqn:E2;
    try discriminate.
  intros E; inversion E; subst heads st'; clear E.
  eapply same_sky_trans; [eapply comet_frame_same_sky; exact E1|].
  eapply IH; exact E2.
Qed.
End Afterglow.

(* ================================================================== *)
(** ** No index out of range *)

Section Safety.
Context {F : Type} {SF : Scalar F}.
Variable cfg : Config F.
Variable rng : Rng F.
Implicit Types (st : State F) (i j k : Z).

(** A result that is no [IndexError], and whose state, if there is one,
    satisfies [P]. *)
Definition safe (A : Type) (P : State F -> Prop) (r : result (A * State F))
  : Prop :=
  match r with
  | Ok (_, st') => P st'
  | Raised IndexError => False
  | Raised ValueError => True
  | OutOfFuel => True
  end.

(** From [st] to [st'], the driver has only been written on the strip. *)
Definition led_trace st st' : Prop :=
  exists evs, events st' = events st ++ evs /\ Forall (led_ok cfg) evs.

Lemma led_trace_refl st : led_trace st st.
Proof. exists []; split; [rewrite app_nil_r; reflexivity|constructor]. Qed.

Lemma led_trace_trans st1 st2 st3 :
  led_trace st1 st2 -> led_trace st2 st3 -> led_trace st1 st3.
Proof.
  intros (e1 & E1 & H1) (e2 & E2 & H2); exists (e1 ++ e2); split.
  - rewrite E2, E1, app_assoc; reflexivity.
  - apply Forall_app; split; assumption.
Qed.

Lemma strip_writes_led_trace st st' :
  (exists evs, events st' = events st ++ evs /\ Forall (strip_write cfg) evs) ->
  led_trace st st'.
Proof.
  intros (evs & E & H); exists evs; split; [exact E|].
  eapply Forall_impl; [apply strip_write_led_ok|exact H].
Qed.

Lemma wf_with_rng_calls st n : wf cfg st -> wf cfg (with_rng_calls st n).
Proof. intros H; exact H. Qed.

Lemma wf_with_array st l :
  wf cfg st ->
  (Z.of_nat (length l) = NUM_LEDS cfg ->
   wf cfg (with_current st l) /\ wf cfg (with_target st l) /\
   wf cfg (with_hue st l) /\ wf cfg (with_sat st l)).
Proof.
  intros (Hc & Ht & Hh & Hs) Hl; repeat split; simpl; assumption.
Qed.

(** On a strip of [NUM_LEDS] stars, a store at an index of the strip
    succeeds. *)
Lemma setitem_on_strip (l : list F) j v :
  Z.of_nat (length l) = NUM_LEDS cfg -> on_strip cfg j ->
  exists l', setitem l j v = Some l' /\ Z.of_nat (length l') = NUM_LEDS cfg.
Proof.
  intros Hl Hj; unfold on_strip in Hj.
  destruct (@getitem_on_strip _ l j) as (c & Ec); [lia|].
  destruct (getitem_Some_setitem _ _ v Ec) as (l' & El).
  exists l'; split; [exact El|].
  rewrite (setitem_length _ _ _ El); exact Hl.
Qed.

(** The body of the loop of [init_stars]: four stores on the strip, and no
    effect. *)
Lemma init_star_ok j st :
  wf cfg st -> on_strip cfg j ->
  exists st',
    init_star cfg rng j st = Ok (tt, st') /\ wf cfg st' /\
    events st' = events st.
Proof.
  intros Hwf Hj; pose proof Hwf as (Hc & Ht & Hh & Hs).
  unfold init_star, random_star_brightness, uniform, random, bind, ret,
    set_current, set_target, set_hue, set_sat, store; simpl.
  match goal with |- context [setitem (star_current st) j ?v] =>
    destruct (setitem_on_strip (star_current st) v Hc Hj) as (l1 & -> & H1) end.
  simpl.
  match goal with |- context [setitem (star_target st) j ?v] =>
    destruct (setitem_on_strip (star_target st) v Ht Hj) as (l2 & -> & H2) end.
  simpl.
  match goal with |- context [setitem (star_hue st) j ?v] =>
    destruct (setitem_on_strip (star_hue st) v Hh Hj) as (l3 & -> & H3) end.
  simpl.
  match goal with |- context [setitem (star_sat st) j ?v] =>
    destruct (setitem_on_strip (star_sat st) v Hs Hj) as (l4 & -> & H4) end.
  eexists; split; [reflexivity|split; [|reflexivity]].
  repeat split; simpl; assumption.
Qed.

Lemma wf_initial_state : (0 <= NUM_LEDS cfg)%Z -> wf cfg (initial_state cfg).
Proof.
  intros H; unfold wf, initial_state; simpl.
  rewrite repeat_length; lia.
Qed.

(** The SETUP block and [init_stars] leave four arrays of [NUM_LEDS] stars,
    and have written nothing to the strip. *)
Lemma init_stars_ok :
  (0 <= NUM_LEDS cfg)%Z ->
  exists st',
    bind start (fun _ => init_stars cfg rng) (initial_state cfg) = Ok (tt, st')
    /\ wf cfg st' /\ events st' = [Start].
Proof.
  intros HN; unfold bind, start, emit; simpl.
  set (st0 := with_events _ _).
  assert (H0 : wf cfg st0 /\ events st0 = [Start])
    by (split; [apply wf_initial_state; exact HN|reflexivity]).
  destruct (for_each_ok (fun s => wf cfg s /\ events s = [Start])
              (range (NUM_LEDS cfg)) (init_star cfg rng)) with (st := st0)
    as (st' & E & Hwf & He); [|exact H0|].
  - intros x s Hx (Hwf & He); apply range_spec in Hx.
    destruct (init_star_ok Hwf Hx) as (s' & E & Hwf' & He').
    exists s'; split; [exact E|split; [exact Hwf'|congruence]].
  - exists st'; split; [exact E|split; assumption].
Qed.

(** [update_stars] on a well-formed state. *)
Lemma update_stars_safe st :
  wf cfg st ->
  exists st', update_stars cfg rng st = Ok (tt, st') /\ wf cfg st' /\
              exists evs, events st' = events st ++ evs /\
                          Forall (strip_write cfg) evs.
Proof.
  intros Hwf; destruct (update_stars_ok rng Hwf) as (st' & E & Hwf').
  exists st'; split; [exact E|split; [exact Hwf'|]].
  eapply update_stars_emits; exact E.
Qed.

(** The [while] loop of a comet, whatever its parameters and the fuel. *)
Lemma comet_loop_safe fuel trail_len direction comet_delay head_brightness
    end_ step :
  forall head st, wf cfg st ->
  safe (fun st' => wf cfg st' /\ led_trace st st')
    (comet_loop cfg fuel trail_len direction comet_delay head_brightness
       head end_ step st).
Proof.
  induction fuel as [|fuel IH]; intros head st Hwf; simpl;
    destruct (Z.eqb_spec head end_) as [Hh|Hh]; unfold ret; simpl;
    try (split; [exact Hwf|apply led_trace_refl]); try exact I.
  unfold bind.
  destruct (comet_frame_ok trail_len direction comet_delay head_brightness
              head Hwf) as (st1 & E1 & Hwf1).
  rewrite E1.
  pose proof (IH (head + step)%Z st1 Hwf1) as H2.
  destruct (comet_loop _ _ _ _ _ _ _ _ _ st1) as [[rest st2]|[]|];
    simpl in *; auto.
  destruct H2 as (Hwf2 & Ht2); split; [exact Hwf2|].
  eapply led_trace_trans; [|exact Ht2].
  apply comet_frame_emits in E1; destruct E1 as (evs & Ee & Hevs).
  exists (evs ++ [Sleep comet_delay]); split; [exact Ee|].
  apply Forall_app; split.
  - eapply Forall_impl; [apply strip_write_led_ok|exact Hevs].
  - constructor; [exact I|constructor].
Qed.

Lemma fly_comet_safe fuel trail_len direction comet_delay head_brightness st :
  wf cfg st ->
  safe (fun st' => wf cfg st' /\ led_trace st st')
    (fly_comet cfg fuel trail_len direction comet_delay head_brightness st).
Proof.
  intros Hwf; unfold fly_comet.
  destruct (direction =? 1)%Z; apply comet_loop_safe; exact Hwf.
Qed.

(** [run_comet] on a well-formed state. *)
Lemma run_comet_safe fuel st :
  wf cfg st ->
  safe (fun st' => wf cfg st' /\ led_trace st st') (run_comet cfg rng fuel st).
Proof.
  intros Hwf; unfold run_comet, bind, randrange, uniform, random, ret.
  destruct (_ <=? _)%Z; [exact I|].
  simpl. 
  match goal with |- context [fly_comet cfg fuel ?l ?d ?a ?b ?s] =>
    pose proof (@fly_comet_safe fuel l d a b s Hwf) as H;
    destruct (fly_comet cfg fuel l d a b s) as [[heads st']|[]|];
    simpl in *; auto end.
Qed.

(** One turn of the main loop on a well-formed state. *)
Lemma main_iteration_safe fuel st :
  wf cfg st ->
  safe (fun st' => wf cfg st' /\ led_trace st st')
    (main_iteration cfg rng fuel st).
Proof.
  intros Hwf; unfold main_iteration, bind.
  destruct (update_stars_safe Hwf) as (st1 & -> & Hwf1 & Ht1).
  apply strip_writes_led_trace in Ht1.
  unfold uniform, random, bind, ret; simpl.
  destruct (fltb _ _).
  - match goal with |- context [run_comet cfg rng fuel ?s] =>
      pose proof (@run_comet_safe fuel s Hwf1) as H;
      destruct (run_comet cfg rng fuel s) as [[heads st2]|[]|];
      simpl in *; auto end.
    destruct H as (Hwf2 & Ht2); split; [exact Hwf2|].
    eapply led_trace_trans; [exact Ht1|].
    eapply led_trace_trans; [exact Ht2|].
    eexists; split; [reflexivity|]. constructor; [exact I|constructor].
  - simpl; split; [exact Hwf1|].
    eapply led_trace_trans; [exact Ht1|].
    eexists; split; [reflexivity|]. constructor; [exact I|constructor].
Qed.
End Safety.

(* ================================================================== *)
(** ** A run of the program *)

(** An oracle for the random module: the draws of [random()] go round the
    tenths, the raw integers count up. *)
Definition sample_rng {F} `{Scalar F} : Rng F := {|
  unit_draw := fun n => dec (Z.of_nat ((7 * n) mod 10)) 10;
  int_draw := fun n => Z.of_nat n
|}.

Definition state_of {F A} (r : result (A * State F)) (default : State F)
  : State F :=
  match r with
  | Ok (_, st) => st
  | _ => default
  end.

(** The state the main loop starts from: the sky [init_stars] makes of
    [sample_rng], on the strip of the source file. *)
Definition night_sky {F} `{Scalar F} : State F :=
  state_of (bind start (fun _ => init_stars source_config sample_rng)
              (initial_state source_config))
           (initial_state source_config).

Lemma night_sky_wf {F} `{Scalar F} : wf source_config (night_sky (F := F)).
Proof.
  unfold night_sky.
  destruct (@init_stars_ok F _ source_config sample_rng) as (st & -> & Hwf & _);
    [simpl; lia|exact Hwf].
Qed.

(* ================================================================== *)
(** ** The sub-frames of a comet *)

Section Flight.
Context {F : Type} {SF : Scalar F}.
Variable cfg : Config F.
Implicit Types (st : State F).

(** More fuel does not change a result. *)
Lemma comet_loop_fuel trail_len direction comet_delay head_brightness end_ step :
  forall fuel fuel' head st r, (fuel <= fuel')%nat ->
  comet_loop cfg fuel trail_len direction comet_delay head_brightness
    head end_ step st = Ok r ->
  comet_loop cfg fuel' trail_len direction comet_delay head_brightness
    head end_ step st = Ok r.
Proof.
  induction fuel as [|fuel IH]; intros fuel' head st r Hle.
  - rewrite comet_loop_O; destruct fuel';
      [rewrite comet_loop_O|rewrite comet_loop_S];
      destruct (head =? end_)%Z; auto; discriminate.
  - destruct fuel' as [|fuel']; [lia|].
    rewrite !comet_loop_S; destruct (head =? end_)%Z; auto.
    unfold bind.
    destruct (comet_frame _ _ _ _ _ _ st) as [[[] st1]| |]; auto.
    destruct (comet_loop cfg fuel _ _ _ _ _ _ _ st1) as [r1| |] eqn:E1;
      try discriminate.
    rewrite (IH fuel' _ _ _ ltac:(lia) E1); auto.
Qed.

Lemma fly_comet_fuel fuel fuel' trail_len direction comet_delay head_brightness
    st r :
  (fuel <= fuel')%nat ->
  fly_comet cfg fuel trail_len direction comet_delay head_brightness st = Ok r ->
  fly_comet cfg fuel' trail_len direction comet_delay head_brightness st = Ok r.
Proof.
  unfold fly_comet; destruct (direction =? 1)%Z; apply comet_loop_fuel.
Qed.

Lemma fly_comet_emits fuel trail_len direction comet_delay head_brightness
    st heads st' :
  fly_comet cfg fuel trail_len direction comet_delay head_brightness st
    = Ok (heads, st') ->
  exists evs,
    events st' = events st ++ evs /\ Forall (led_ok cfg) evs /\
    sleeps evs = length heads.
Proof.
  unfold fly_comet; destruct (direction =? 1)%Z; apply comet_loop_emits.
Qed.

Lemma sub_frames_spec trail_len :
  (0 <= NUM_LEDS cfg)%Z -> (0 <= trail_len)%Z ->
  Z.of_nat (sub_frames cfg trail_len) = (NUM_LEDS cfg + 2 * trail_len)%Z.
Proof. intros; unfold sub_frames; lia. Qed.

(** C4: a comet flying forward takes its head over the integers from
    [- trail_len] to [NUM_LEDS + trail_len - 1], each one once, in steps of
    +1; a comet flying backward takes it from [NUM_LEDS + trail_len] down, in
    steps of -1, and stops before [- trail_len]. *)
Theorem comet_traversal fuel trail_len comet_delay head_brightness st :
  (0 <= trail_len)%Z -> wf cfg st ->
  (sub_frames cfg trail_len <= fuel)%nat ->
  let forward := progression (- trail_len) 1 (sub_frames cfg trail_len) in
  let backward :=
    progression (NUM_LEDS cfg + trail_len) (-1) (sub_frames cfg trail_len) in
  (exists st',
     fly_comet cfg fuel trail_len 1 comet_delay head_brightness st
     = Ok (forward, st')) /\
  (exists st',
     fly_comet cfg fuel trail_len (-1) comet_delay head_brightness st
     = Ok (backward, st')) /\
  NoDup forward /\ NoDup backward /\
  (forall h, In h forward <->
             (- trail_len <= h <= NUM_LEDS cfg + trail_len - 1)%Z) /\
  (forall h, In h backward <->
             (- trail_len < h <= NUM_LEDS cfg + trail_len)%Z).
Proof.
  intros HL Hwf Hfuel forward backward.
  pose proof (wf_NUM_LEDS Hwf) as HN.
  pose proof (sub_frames_spec HN HL) as Hn.
  split; [|split; [|split; [|split; [|split]]]].
  - destruct (fly_comet_forward comet_delay head_brightness HL Hwf Hfuel)
      as (st' & E & _); exists st'; exact E.
  - destruct (@fly_comet_backward _ _ cfg fuel trail_len (-1) comet_delay
                head_brightness st) as (st' & E & _);
      [discriminate|assumption..|]; exists st'; exact E.
  - apply progression_NoDup; discriminate.
  - apply progression_NoDup; discriminate.
  - intros h; unfold forward; rewrite progression_In; split.
    + intros (j & Hj & ->); lia.
    + intros Hh; exists (Z.to_nat (h + trail_len)); lia.
  - intros h; unfold backward; rewrite progression_In; split.
    + intros (j & Hj & ->); lia.
    + intros Hh; exists (Z.to_nat (NUM_LEDS cfg + trail_len - h)); lia.
Qed.

(** C9: for a trail length in [1, NUM_LEDS] and either direction, the loop
    of sub-frames ends, having run [NUM_LEDS + 2 * trail_len] sub-frames, one
    sleep each: this many turns are enough, and no fewer are. *)
Theorem comet_terminates trail_len direction comet_delay head_brightness st :
  (1 <= trail_len <= NUM_LEDS cfg)%Z ->
  direction = 1%Z \/ direction = (-1)%Z ->
  wf cfg st ->
  exists heads st',
    (forall fuel, (sub_frames cfg trail_len <= fuel)%nat ->
       fly_comet cfg fuel trail_len direction comet_delay head_brightness st
       = Ok (heads, st')) /\
    (forall fuel, (fuel < sub_frames cfg trail_len)%nat ->
       fly_comet cfg fuel trail_len direction comet_delay head_brightness st
       = OutOfFuel) /\
    Z.of_nat (length heads) = (NUM_LEDS cfg + 2 * trail_len)%Z /\
    exists evs,
      events st' = events st ++ evs /\
      Z.of_nat (sleeps evs) = (NUM_LEDS cfg + 2 * trail_len)%Z.
Proof.
  intros HL Hd Hwf.
  assert (HL0 : (0 <= trail_len)%Z) by lia.
  pose proof (wf_NUM_LEDS Hwf) as HN.
  pose proof (sub_frames_spec HN HL0) as Hn.
  assert (E : exists heads st',
             fly_comet cfg (sub_frames cfg trail_len) trail_len direction
               comet_delay head_brightness st = Ok (heads, st') /\
             length heads = sub_frames cfg trail_len).
  { destruct Hd as [->| ->].
    - destruct (fly_comet_forward comet_delay head_brightness HL0 Hwf
                  (le_n _)) as (st' & E & _).
      eexists; exists st'; split; [exact E|apply progression_length].
    - destruct (@fly_comet_backward _ _ cfg (sub_frames cfg trail_len)
                  trail_len (-1) comet_delay head_brightness st)
        as (st' & E & _); [discriminate|assumption..|apply le_n|].
      eexists; exists st'; split; [exact E|apply progression_length]. }
  destruct E as (heads & st' & E & Hlen).
  exists heads, st'; split; [|split; [|split]].
  - intros fuel Hfuel; eapply fly_comet_fuel; eassumption.
  - intros fuel Hfuel; apply fly_comet_short; assumption.
  - rewrite Hlen; exact Hn.
  - destruct (fly_comet_emits _ _ _ _ _ _ E) as (evs & Ee & _ & Hs).
    exists evs; split; [exact Ee|]. rewrite Hs, Hlen; exact Hn.
Qed.
End Flight.

Lemma comet_traversal_witness :
  exists st',
    fly_comet (source_config (F := Q)) 74 4 1 (dec 2 100) (dec 8 10) night_sky
    = Ok (progression (-4) 1 74, st').
Proof.
  exact (proj1 (@comet_traversal Q _ source_config 74 4 (dec 2 100) (dec 8 10)
                  night_sky ltac:(lia) night_sky_wf ltac:(vm_compute; lia))).
Defined.

Lemma comet_terminates_witness :
  exists heads st',
    fly_comet (source_config (F := Q)) 100 8 (-1) (dec 2 100) (dec 8 10)
      night_sky = Ok (heads, st') /\
    Z.of_nat (length heads) = 82%Z.
Proof.
  destruct (@comet_terminates Q _ source_config 8 (-1) (dec 2 100) (dec 8 10)
              night_sky ltac:(simpl; lia) (or_intror eq_refl) night_sky_wf)
    as (heads & st' & Hrun & _ & Hlen & _).
  exists heads, st'; split; [apply Hrun; vm_compute; lia|exact Hlen].
Defined.

(* ================================================================== *)
(** ** The frame of each piece of the program *)

Section Frames.
Context {F : Type} {SF : Scalar F}.
Variable cfg : Config F.
Variable rng : Rng F.
Implicit Types (st : State F) (k pos : Z).

(** C10: the loop of [update_stars], which draws each star as soon as it is
    updated, is the same computation as updating all the stars and then
    drawing all of them: from the same state and with the same draws, the
    two fail alike or end in the same arrays, the same position in the draws
    and the same writes to the driver, in the same order. *)
Theorem update_stars_decomposed st :
  update_stars cfg rng st = update_then_render cfg rng st.
Proof.
  unfold update_stars, update_then_render.
  apply fused_loop_split; [|apply range_NoDup].
  apply Forall_forall; intros j Hj; apply range_spec in Hj; lia.
Qed.

(** C5: in a sub-frame, the star under the trail offset [k], if it is on the
    strip, goes from brightness [c] to
    [min(c + comet_b * AFTERGLOW_MAX, STAR_MAX_BRIGHT)], the stars under no
    offset keep their brightness, and the targets, the hues and the
    saturations are those from before the sub-frame. *)
Theorem afterglow_write trail_len direction comet_delay head_brightness head
    st st' :
  direction = 1%Z \/ direction = (-1)%Z ->
  comet_frame cfg trail_len direction comet_delay head_brightness head st
    = Ok (tt, st') ->
  (forall k, (0 <= k < trail_len)%Z ->
     let pos := (head - k * direction)%Z in
     (0 <= pos < NUM_LEDS cfg)%Z ->
     exists c,
       getitem (star_current st) pos = Some c /\
       getitem (star_current st') pos
       = Some (py_min (c + comet_b head_brightness trail_len k
                          * AFTERGLOW_MAX cfg)%S
                      (STAR_MAX_BRIGHT cfg))) /\
  (forall pos, (0 <= pos)%Z ->
     (forall k, (0 <= k < trail_len)%Z -> pos <> (head - k * direction)%Z) ->
     getitem (star_current st') pos = getitem (star_current st) pos) /\
  star_target st' = star_target st /\
  star_hue st' = star_hue st /\
  star_sat st' = star_sat st.
Proof.
  intros Hd E.
  assert (Hd0 : direction <> 0%Z) by (destruct Hd; subst; discriminate).
  destruct (comet_frame_inv _ _ _ _ _ _ Hd0 E) as ((Ht & Hh & Hs) & H1 & H2).
  split; [exact H1|split; [|split; [|split]]]; try assumption.
  intros pos Hpos Hfree; apply H2; [exact Hpos|].
  intros k Hk _; apply Hfree; exact Hk.
Qed.

(** C8: on the strip [init_stars] sets up, a call of [update_stars], a call
    of [run_comet] and a turn of the main loop raise no [IndexError], and
    every [set_hsv] they make is at an index of [0, NUM_LEDS); a trail
    offset whose position is off the strip writes nothing, neither to the
    driver nor to an array. *)
Theorem indices_in_range fuel st :
  wf cfg st ->
  (forall trail_len direction head_brightness head k s s',
     draw_trail cfg trail_len direction head_brightness head k s = Ok (tt, s') ->
     ~ (0 <= head - k * direction < NUM_LEDS cfg)%Z -> s' = s) /\
  (exists st', update_stars cfg rng st = Ok (tt, st') /\ wf cfg st' /\
     exists evs, events st' = events st ++ evs /\
       Forall (fun e => exists i h s v,
                 e = SetHsv i h s v /\ (0 <= i < NUM_LEDS cfg)%Z) evs) /\
  safe (fun st' => wf cfg st' /\
          exists evs, events st' = events st ++ evs /\
            Forall (fun e => forall i h s v,
                      e = SetHsv i h s v -> (0 <= i < NUM_LEDS cfg)%Z) evs)
       (run_comet cfg rng fuel st) /\
  safe (fun st' => wf cfg st' /\
          exists evs, events st' = events st ++ evs /\
            Forall (fun e => forall i h s v,
                      e = SetHsv i h s v -> (0 <= i < NUM_LEDS cfg)%Z) evs)
       (main_iteration cfg rng fuel st).
Proof.
  intros Hwf.
  assert (Hled : forall s s', led_trace cfg s s' ->
            exists evs, events s' = events s ++ evs /\
              Forall (fun e => forall i h sa v,
                        e = SetHsv i h sa v -> (0 <= i < NUM_LEDS cfg)%Z) evs).
  { intros s s' (evs & E & H); exists evs; split; [exact E|].
    eapply Forall_impl; [|exact H].
    intros e He i h sa v ->; exact He. }
  split; [|split; [|split]].
  - intros trail_len direction head_brightness head k s s' E Hoff.
    apply draw_trail_inv in E; destruct E as [(_ & E)|(Hon & _)];
      [exact E|contradiction].
  - destruct (update_stars_safe rng Hwf) as (st' & E & Hwf' & evs & Ee & H).
    exists st'; split; [exact E|split; [exact Hwf'|]].
    exists evs; split; [exact Ee|].
    eapply Forall_impl; [|exact H].
    intros [|i h s v|d] He; try contradiction.
    exists i, h, s, v; split; [reflexivity|exact He].
  - pose proof (run_comet_safe rng fuel Hwf) as H.
    destruct (run_comet cfg rng fuel st) as [[heads st']|[]|]; simpl in *; auto.
    destruct H as (Hwf' & Ht); split; [exact Hwf'|apply Hled; exact Ht].
  - pose proof (main_iteration_safe rng fuel Hwf) as H.
    destruct (main_iteration cfg rng fuel st) as [[[] st']|[]|]; simpl in *; auto.
    destruct H as (Hwf' & Ht); split; [exact Hwf'|apply Hled; exact Ht].
Qed.
End Frames.

(** The state one sub-frame after [night_sky]: a comet of trail length 4
    flying forward, its head on star 2. *)
Definition sample_frame : State Q :=
  state_of (comet_frame source_config 4 1 (dec 2 100) (dec 8 10) 2 night_sky)
           night_sky.

Lemma afterglow_write_witness :
  star_target sample_frame = star_target night_sky.
Proof.
  assert (E : comet_frame source_config 4 1 (dec 2 100) (dec 8 10) 2 night_sky
              = Ok (tt, sample_frame)) by (vm_compute; reflexivity).
  exact (proj1 (proj2 (proj2
           (@afterglow_write Q Q_scalar source_config 4 1 (dec 2 100)
              (dec 8 10) 2 night_sky sample_frame (or_introl eq_refl) E)))).
Defined.

Lemma indices_in_range_witness :
  exists st',
    update_stars source_config sample_rng (night_sky (F := Q)) = Ok (tt, st') /\
    wf source_config st'.
Proof.
  destruct (@indices_in_range Q _ source_config sample_rng 200 night_sky
              night_sky_wf) as (_ & (st' & E & Hwf & _) & _).
  exists st'; split; [exact E|exact Hwf].
Defined.

(* ================================================================== *)
(** ** Exact arithmetic: brightness values *)

Lemma Qltb_lt (a b : Q) : Qltb a b = true <-> a < b.
Proof.
  unfold Qltb; rewrite negb_true_iff, <- not_true_iff_false, Qle_bool_iff.
  split; [apply Qnot_le_lt|apply Qlt_not_le].
Qed.

Lemma Qltb_ge (a b : Q) : Qltb a b = false <-> b <= a.
Proof.
  unfold Qltb; rewrite negb_false_iff, Qle_bool_iff; reflexivity.
Qed.

Lemma Qltb_spec (a b : Q) : reflect (a < b) (Qltb a b).
Proof.
  destruct (Qltb a b) eqn:E; constructor.
  - apply Qltb_lt; exact E.
  - apply Qle_not_lt, Qltb_ge; exact E.
Qed.

Section Exact.
Variable cfg : Config Q.
Variable rng : Rng Q.
Implicit Types (st : State Q) (c t u : Q) (k : Z).

(** A brightness of [STAR_MIN_BRIGHT, STAR_MAX_BRIGHT]. *)
Definition in_range c : Prop :=
  STAR_MIN_BRIGHT cfg <= c <= STAR_MAX_BRIGHT cfg.

(** The draws of [random()] are reals of [0, 1]. *)
Definition unit_draws : Prop := forall n, 0 <= unit_draw rng n <= 1.

Lemma star_brightness_eq u :
  star_brightness cfg u ==
  STAR_MIN_BRIGHT cfg + u * u * (STAR_MAX_BRIGHT cfg - STAR_MIN_BRIGHT cfg).
Proof. unfold star_brightness; simpl; ring. Qed.

Lemma star_brightness_in_range u :
  STAR_MIN_BRIGHT cfg <= STAR_MAX_BRIGHT cfg -> 0 <= u <= 1 ->
  in_range (star_brightness cfg u).
Proof.
  intros Hm Hu; unfold in_range; rewrite star_brightness_eq.
  assert (0 <= u * u <= 1) by nra.
  nra.
Qed.

Lemma star_brightness_biased u :
  STAR_MIN_BRIGHT cfg <= STAR_MAX_BRIGHT cfg -> 0 <= u <= 1 ->
  star_brightness cfg u <=
  STAR_MIN_BRIGHT cfg + u * (STAR_MAX_BRIGHT cfg - STAR_MIN_BRIGHT cfg).
Proof.
  intros Hm Hu; rewrite star_brightness_eq.
  assert (u * u <= u) by nra.
  nra.
Qed.

(** C7: [random_star_brightness()] returns
    [STAR_MIN_BRIGHT + x * x * (STAR_MAX_BRIGHT - STAR_MIN_BRIGHT)], [x]
    being the draw of [uniform(0.0, 1.0)]; for a draw of [0, 1] the result is
    in [STAR_MIN_BRIGHT, STAR_MAX_BRIGHT] and at most the linear value
    [STAR_MIN_BRIGHT + x * (STAR_MAX_BRIGHT - STAR_MIN_BRIGHT)]. *)
Theorem random_star_brightness_biased st :
  STAR_MIN_BRIGHT cfg <= STAR_MAX_BRIGHT cfg ->
  0 <= unit_draw rng (rng_calls st) <= 1 ->
  exists x b st1,
    uniform rng (of_int 0) (of_int 1) st = Ok (x, st1) /\
    random_star_brightness cfg rng st = Ok (b, st1) /\
    0 <= x <= 1 /\
    b == STAR_MIN_BRIGHT cfg
         + x * x * (STAR_MAX_BRIGHT cfg - STAR_MIN_BRIGHT cfg) /\
    STAR_MIN_BRIGHT cfg <= b <= STAR_MAX_BRIGHT cfg /\
    b <= STAR_MIN_BRIGHT cfg
         + x * (STAR_MAX_BRIGHT cfg - STAR_MIN_BRIGHT cfg).
Proof.
  intros Hm Hu.
  set (u := unit_draw rng (rng_calls st)) in *.
  exists (0 + (1 - 0) * u), (star_brightness cfg u),
         (with_rng_calls st (S (rng_calls st))).
  assert (Ex : 0 + (1 - 0) * u == u) by ring.
  split; [reflexivity|split; [reflexivity|]].
  rewrite Ex.
  split; [exact Hu|split; [apply star_brightness_eq|split]].
  - apply star_brightness_in_range; assumption.
  - apply star_brightness_biased; assumption.
Qed.

(** *** The shape of a trail *)

Lemma frac_eq trail_len k :
  frac trail_len k == inject_Z (trail_len - k) / inject_Z trail_len.
Proof. reflexivity. Qed.

Lemma frac_pos trail_len k :
  (0 <= k < trail_len)%Z -> 0 < frac trail_len k.
Proof.
  intros Hk; unfold frac; simpl.
  apply Qlt_shift_div_l; [change 0 with (inject_Z 0); rewrite <- Zlt_Qlt; lia|].
  rewrite Qmult_0_l; change 0 with (inject_Z 0); rewrite <- Zlt_Qlt; lia.
Qed.

Lemma frac_decreasing trail_len k k' :
  (0 <= k < k')%Z -> (k' < trail_len)%Z ->
  frac trail_len k' < frac trail_len k.
Proof.
  intros Hk Hk'; unfold frac; simpl.
  assert (HL : 0 < inject_Z trail_len)
    by (change 0 with (inject_Z 0); rewrite <- Zlt_Qlt; lia).
  apply Qlt_shift_div_l; [exact HL|].
  unfold Qdiv; rewrite <- Qmult_assoc, (Qmult_comm (/ _)), Qmult_inv_r,
    Qmult_1_r; [rewrite <- Zlt_Qlt; lia|].
  intros E; rewrite E in HL; discriminate.
Qed.

Lemma comet_b_decreasing head_brightness trail_len k k' :
  0 < head_brightness -> (0 <= k < k')%Z -> (k' < trail_len)%Z ->
  comet_b head_brightness trail_len k' < comet_b head_brightness trail_len k.
Proof.
  intros HH Hk Hk'; unfold comet_b; simpl.
  pose proof (frac_decreasing Hk Hk') as Hf.
  pose proof (@frac_pos trail_len k' ltac:(lia)) as Hp.
  set (f := frac trail_len k) in *; set (f' := frac trail_len k') in *.
  assert (Hsq : f' * f' < f * f) by nra.
  apply Qmult_lt_l; assumption.
Qed.

(** C3: the write of the trail offset [k], when its position is on the
    strip, has brightness [H * ((L - k) / L)^2] and saturation
    [COMET_SAT * (L - k) / L]; for a positive head brightness, the
    brightness is strictly smaller at a larger offset. *)
Theorem trail_shape trail_len direction head_brightness head k st st' :
  (0 <= k < trail_len)%Z ->
  (0 <= head - k * direction < NUM_LEDS cfg)%Z ->
  draw_trail cfg trail_len direction head_brightness head k st = Ok (tt, st') ->
  exists s b,
    events st' = events st ++
                 [SetHsv (head - k * direction)%Z (COMET_HUE cfg) s b] /\
    b == head_brightness
         * (inject_Z (trail_len - k) / inject_Z trail_len) ^ 2 /\
    s == COMET_SAT cfg * (inject_Z (trail_len - k) / inject_Z trail_len) /\
    (0 < head_brightness ->
     forall k', (k < k' < trail_len)%Z ->
       comet_b head_brightness trail_len k' < b).
Proof.
  intros Hk Hon E; apply draw_trail_inv in E; cbv zeta in E.
  destruct E as [(Hoff & _)|(_ & c & l & _ & _ & ->)]; [contradiction|].
  exists (tail_sat cfg trail_len k), (comet_b head_brightness trail_len k).
  split; [reflexivity|split; [|split]].
  - unfold comet_b, frac; simpl; ring.
  - reflexivity.
  - intros HH k' Hk'; apply comet_b_decreasing; [exact HH|lia|lia].
Qed.
End Exact.

(* ================================================================== *)
(** ** One star through the loop of [update_stars] *)

Section OneStar.
Context {F : Type} {SF : Scalar F}.
Variable cfg : Config F.
Variable rng : Rng F.
Implicit Types (st : State F) (i j : Z) (c t : F).

(** The body of the loop for star [j], seen from the arrays: star [j] gets a
    target [t'], which is its old one unless one is drawn, and eases towards
    it; the other stars keep brightness and target. *)
Lemma update_star_at j st st' :
  (0 <= j)%Z ->
  update_star cfg rng j st = Ok (tt, st') ->
  exists c t t',
    getitem (star_current st) j = Some c /\
    getitem (star_target st) j = Some t /\
    getitem (star_target st') j = Some t' /\
    getitem (star_current st') j = Some (ease cfg c t') /\
    (t' = t \/
     fltb (unit_draw rng (rng_calls st)) (STAR_NEW_TARGET_CHANCE cfg) = true /\
     t' = star_brightness cfg (unit_draw rng (S (rng_calls st)))) /\
    (fltb (unit_draw rng (rng_calls st)) (STAR_NEW_TARGET_CHANCE cfg) = false ->
     t' = t) /\
    forall i, (0 <= i)%Z -> i <> j ->
      getitem (star_current st') i = getitem (star_current st) i /\
      getitem (star_target st') i = getitem (star_target st) i.
Proof.
  intros Hj; rewrite update_star_split; unfold bind.
  destruct (star_update cfg rng j st) as [[[] s1]| |] eqn:E1;
    try (intros E0; discriminate E0).
  rewrite draw_star_spec.
  destruct (getitem (star_hue s1) j); try (intros E0; discriminate E0).
  destruct (getitem (star_sat s1) j); try (intros E0; discriminate E0).
  destruct (getitem (star_current s1) j); try (intros E0; discriminate E0).
  intros E; inversion E; subst st'; clear E; simpl.
  apply star_update_inv in E1.
  destruct E1 as (s0 & c & t' & E0 & Ec & Et & Es & Est).
  assert (Htgt : star_target s1 = star_target s0) by (rewrite Est; reflexivity).
  rewrite Htgt; clear Est Htgt.
  apply new_target_inv in E0.
  destruct E0 as (Hc & _ & _ & _ & Hcase); rewrite Hc in Ec, Es.
  assert (Hcur : forall i, (0 <= i)%Z -> i <> j ->
            getitem (star_current s1) i = getitem (star_current st) i)
    by (intros i Hi Hij; eapply getitem_setitem_other;
        [exact Hi|exact Hj|exact Hij|exact Es]).
  destruct Hcase as [(Er & Ht & _)|(Er & Ht & _)].
  - rewrite Ht in *; exists c, t', t'.
    split; [exact Ec|split; [exact Et|split; [exact Et|]]].
    split; [eapply getitem_setitem_same; exact Es|].
    split; [left; reflexivity|split; [reflexivity|]].
    intros i Hi Hij; split; [apply Hcur; assumption|reflexivity].
  - destruct (getitem (star_target st) j) as [t|] eqn:Eold.
    + exists c, t, t'; split; [exact Ec|split; [reflexivity|]].
      split; [exact Et|split; [eapply getitem_setitem_same; exact Es|]].
      pose proof (getitem_setitem_same _ _ _ Ht) as Enew.
      rewrite Et in Enew; inversion Enew; subst t'.
      split; [right; split; [exact Er|reflexivity]|split].
      * rewrite Er; intros E0; discriminate E0.
      * intros i Hi Hij; split; [apply Hcur; assumption|].
        eapply getitem_setitem_other; [exact Hi|exact Hj|exact Hij|exact Ht].
    + exfalso. unfold setitem in Ht; unfold getitem in Eold.
      destruct (py_index (length (star_target st)) j) as [n|] eqn:En;
        [|discriminate].
      apply py_index_lt in En; apply nth_error_None in Eold; lia.
Qed.

(** A loop in which only the turn of [i] goes from [Pb] to [Pa], the other
    turns keeping both. *)
Lemma for_each_once (Pb Pa : State F -> Prop) (body : Z -> M F unit) i l :
  NoDup l ->
  (forall j s s', In j l -> j <> i -> body j s = Ok (tt, s') ->
     (Pb s -> Pb s') /\ (Pa s -> Pa s')) ->
  (forall s s', body i s = Ok (tt, s') -> Pb s -> Pa s') ->
  forall st st', for_each l body st = Ok (tt, st') ->
  (Pb st -> (In i l -> Pa st') /\ (~ In i l -> Pb st')) /\
  (~ In i l -> Pa st -> Pa st').
Proof.
  intros Hl; induction Hl as [|j l Hn Hl IH]; intros Hother Hi st st'.
  - simpl; unfold ret; intros E; inversion E; subst; tauto.
  - simpl for_each; unfold bind.
    destruct (body j st) as [[[] s1]| |] eqn:E1;
      try (intros E0; discriminate E0).
    intros E2.
    assert (Hother' : forall j s s', In j l -> j <> i ->
              body j s = Ok (tt, s') -> (Pb s -> Pb s') /\ (Pa s -> Pa s'))
      by (intros j' s s' Hj'; apply Hother; right; exact Hj').
    destruct (IH Hother' Hi _ _ E2) as (IH1 & IH2).
    destruct (Z.eq_dec j i) as [->|Hji].
    + split.
      * intros Hb; split; [intros _|intros Hni; exfalso; apply Hni; left; reflexivity].
        apply IH2; [exact Hn|eapply Hi; eassumption].
      * intros Hni; exfalso; apply Hni; left; reflexivity.
    + destruct (Hother j st s1 (or_introl eq_refl) Hji E1) as (Kb & Ka).
      split.
      * intros Hb; destruct (IH1 (Kb Hb)) as (I1 & I2); split.
        -- intros [Hx|Hx]; [contradiction|apply I1; exact Hx].
        -- intros Hni; apply I2; intros Hx; apply Hni; right; exact Hx.
      * intros Hni Ha; apply IH2; [|apply Ka; exact Ha].
        intros Hx; apply Hni; right; exact Hx.
Qed.

(** No draw of [random()] is below [STAR_NEW_TARGET_CHANCE]: no star ever
    gets a new target. *)
Definition no_resample : Prop :=
  forall n, fltb (unit_draw rng n) (STAR_NEW_TARGET_CHANCE cfg) = false.

(** One call of [update_stars] without a new target: the star [i] eases
    once. *)
Lemma update_stars_once i c t st :
  no_resample -> wf cfg st -> on_strip cfg i ->
  getitem (star_current st) i = Some c ->
  getitem (star_target st) i = Some t ->
  exists st',
    update_stars cfg rng st = Ok (tt, st') /\ wf cfg st' /\
    getitem (star_current st') i = Some (ease cfg c t) /\
    getitem (star_target st') i = Some t.
Proof.
  intros Hno Hwf Hi Ec Et.
  destruct (update_stars_ok rng Hwf) as (st' & E & Hwf').
  exists st'; split; [exact E|split; [exact Hwf'|]].
  unfold update_stars in E.
  apply (@for_each_once
           (fun s => getitem (star_current s) i = Some c /\
                     getitem (star_target s) i = Some t)
           (fun s => getitem (star_current s) i = Some (ease cfg c t) /\
                     getitem (star_target s) i = Some t)
           (update_star cfg rng) i _ (range_NoDup (NUM_LEDS cfg))) in E.
  - destruct E as (E & _); apply E; [split; assumption|].
    apply range_spec; exact Hi.
  - intros j s s' Hj Hji Ej; apply range_spec in Hj.
    apply update_star_at in Ej; [|lia].
    destruct Ej as (c0 & t0 & t1 & _ & _ & _ & _ & _ & _ & Hframe).
    destruct (Hframe i ltac:(apply Hi) ltac:(congruence)) as (-> & ->); tauto.
  - intros s s' Ei (Ec' & Et').
    apply update_star_at in Ei; [|apply Hi].
    destruct Ei as (c' & t' & t'' & Ec'' & Et'' & Et3 & Ec3 & _ & Hsame & _).
    rewrite Ec' in Ec''; rewrite Et' in Et''.
    inversion Ec''; inversion Et''; subst c' t'.
    rewrite (Hsame (Hno _)) in *; split; assumption.
Qed.

(** [n] calls in a row. *)
Fixpoint calls (n : nat) (m : M F unit) : M F unit :=
  match n with
  | O => ret tt
  | S n' => bind m (fun _ => calls n' m)
  end.

(** [n] easing steps of [c] towards [t]. *)
Fixpoint ease_n (n : nat) (c t : F) : F :=
  match n with
  | O => c
  | S n' => ease_n n' (ease cfg c t) t
  end.

Lemma update_stars_calls i t n :
  no_resample -> on_strip cfg i ->
  forall c st, wf cfg st ->
  getitem (star_current st) i = Some c ->
  getitem (star_target st) i = Some t ->
  exists st',
    calls n (update_stars cfg rng) st = Ok (tt, st') /\ wf cfg st' /\
    getitem (star_current st') i = Some (ease_n n c t) /\
    getitem (star_target st') i = Some t.
Proof.
  intros Hno Hi; induction n as [|n IH]; intros c st Hwf Ec Et.
  - exists st; repeat split; try assumption; apply Hwf.
  - destruct (update_stars_once Hno Hwf Hi Ec Et) as (s1 & E1 & Hwf1 & Ec1 & Et1).
    destruct (IH _ _ Hwf1 Ec1 Et1) as (st' & E2 & Hwf' & Ec' & Et').
    exists st'; split; [|split; [exact Hwf'|split; assumption]].
    simpl; unfold bind; rewrite E1; exact E2.
Qed.

(** A star on its target stays there, provided no value is below itself. *)
Lemma ease_at_target c : fltb c c = false -> ease cfg c c = c.
Proof. intros E; unfold ease; rewrite E; reflexivity. Qed.
End OneStar.

(* ================================================================== *)
(** ** Exact arithmetic: the brightness of a star stays in range *)

Section Range.
Variable cfg : Config Q.
Variable rng : Rng Q.
Implicit Types (st : State Q) (c t u : Q) (i j k : Z).

(** The brightness and the target of star [i] are in
    [STAR_MIN_BRIGHT, STAR_MAX_BRIGHT]. *)
Definition star_ok i st : Prop :=
  match getitem (star_current st) i, getitem (star_target st) i with
  | Some c, Some t => in_range cfg c /\ in_range cfg t
  | _, _ => False
  end.

Lemma star_ok_iff i st :
  star_ok i st <->
  exists c t, getitem (star_current st) i = Some c /\
              getitem (star_target st) i = Some t /\
              in_range cfg c /\ in_range cfg t.
Proof.
  unfold star_ok; split.
  - destruct (getitem (star_current st) i) as [c|]; [|contradiction].
    destruct (getitem (star_target st) i) as [t|]; [|contradiction].
    intros (Hc & Ht); exists c, t; auto.
  - intros (c & t & -> & -> & Hc & Ht); auto.
Qed.

Lemma star_ok_ext i st st' :
  star_current st' = star_current st -> star_target st' = star_target st ->
  star_ok i st -> star_ok i st'.
Proof. unfold star_ok; intros -> ->; auto. Qed.

(** One easing step lands between the brightness and the target. *)
Lemma ease_between c t :
  0 <= STAR_FADE_SPEED cfg ->
  (c <= t -> c <= ease cfg c t <= t) /\ (t <= c -> t <= ease cfg c t <= c).
Proof.
  intros Hs; unfold ease; cbn [fadd fsub fltb Q_scalar].
  destruct (Qltb_spec c t) as [H1|H1].
  - destruct (Qltb_spec t (c + STAR_FADE_SPEED cfg)); split; intros; split; lra.
  - destruct (Qltb_spec t c) as [H2|H2];
      [destruct (Qltb_spec (c - STAR_FADE_SPEED cfg) t)|];
      split; intros; split; lra.
Qed.

Lemma ease_in_range c t :
  0 <= STAR_FADE_SPEED cfg ->
  in_range cfg c -> in_range cfg t -> in_range cfg (ease cfg c t).
Proof.
  unfold in_range; intros Hs Hc Ht.
  destruct (ease_between c t Hs) as (H1 & H2).
  destruct (Qlt_le_dec c t) as [Hlt|Hle].
  - assert (c <= t) by lra. specialize (H1 H); lra.
  - specialize (H2 Hle); lra.
Qed.

Lemma comet_b_nonneg head_brightness trail_len k :
  0 <= head_brightness -> 0 <= comet_b head_brightness trail_len k.
Proof.
  intros HH; unfold comet_b; cbn [fmul Q_scalar].
  set (f := frac trail_len k).
  assert (0 <= f * f) by nra.
  apply Qmult_le_0_compat; assumption.
Qed.

(** The clamped afterglow of a brightness in range is in range. *)
Lemma afterglow_in_range head_brightness trail_len k c :
  STAR_MIN_BRIGHT cfg <= STAR_MAX_BRIGHT cfg -> 0 <= AFTERGLOW_MAX cfg ->
  0 <= head_brightness -> in_range cfg c ->
  in_range cfg (py_min (c + comet_b head_brightness trail_len k
                            * AFTERGLOW_MAX cfg)%S
                       (STAR_MAX_BRIGHT cfg)).
Proof.
  intros Hm Ha HH Hc; unfold in_range in *.
  pose proof (comet_b_nonneg trail_len k HH) as Hb.
  assert (Hg : 0 <= comet_b head_brightness trail_len k * AFTERGLOW_MAX cfg)
    by (apply Qmult_le_0_compat; assumption).
  unfold py_min; cbn [fadd fmul fltb Q_scalar].
  set (g := comet_b head_brightness trail_len k * AFTERGLOW_MAX cfg) in *.
  destruct (Qltb_spec (STAR_MAX_BRIGHT cfg) (c + g)); split; lra.
Qed.

Hypothesis min_le_max : STAR_MIN_BRIGHT cfg <= STAR_MAX_BRIGHT cfg.

Lemma update_star_keeps i j st st' :
  0 <= STAR_FADE_SPEED cfg -> unit_draws rng ->
  (0 <= i)%Z -> (0 <= j)%Z ->
  update_star cfg rng j st = Ok (tt, st') -> star_ok i st -> star_ok i st'.
Proof.
  intros Hs Hu Hi Hj E Hok; apply star_ok_iff in Hok; apply star_ok_iff.
  destruct Hok as (c & t & Ec & Et & Hc & Ht).
  apply update_star_at in E; [|exact Hj].
  destruct E as (c0 & t0 & t' & Ec0 & Et0 & Et' & Ec' & Hcase & _ & Hframe).
  destruct (Z.eq_dec i j) as [->|Hij].
  - rewrite Ec in Ec0; rewrite Et in Et0; inversion Ec0; inversion Et0; subst.
    assert (Ht' : in_range cfg t').
    { destruct Hcase as [->|(_ & ->)]; [exact Ht|].
      apply star_brightness_in_range; [exact min_le_max|apply Hu]. }
    exists (ease cfg c0 t'), t'; repeat split; try assumption;
      try apply ease_in_range; try apply Ht'; assumption.
  - destruct (Hframe i Hi Hij) as (Ec1 & Et1).
    exists c, t; rewrite Ec1, Et1; auto.
Qed.

Lemma draw_trail_keeps i trail_len direction head_brightness head k st st' :
  0 <= AFTERGLOW_MAX cfg -> 0 <= head_brightness -> (0 <= i)%Z ->
  draw_trail cfg trail_len direction head_brightness head k st = Ok (tt, st') ->
  star_ok i st -> star_ok i st'.
Proof.
  intros Ha HH Hi E Hok; apply draw_trail_inv in E; cbv zeta in E.
  destruct E as [(_ & ->)|(Hon & c & l & Ec & El & ->)]; [exact Hok|].
  apply star_ok_iff in Hok; apply star_ok_iff; simpl.
  destruct Hok as (c0 & t & Ec0 & Et & Hc & Ht).
  destruct (Z.eq_dec i (head - k * direction)) as [->|Hne].
  - rewrite Ec in Ec0; inversion Ec0; subst c0.
    eexists; exists t; split; [eapply getitem_setitem_same; exact El|].
    split; [exact Et|split; [|exact Ht]].
    apply afterglow_in_range; assumption.
  - exists c0, t; split; [|auto].
    rewrite <- Ec0; eapply getitem_setitem_other;
      [exact Hi|apply Hon|exact Hne|exact El].
Qed.

Lemma comet_frame_keeps i trail_len direction comet_delay head_brightness head
    st st' :
  0 <= AFTERGLOW_MAX cfg -> 0 <= head_brightness -> (0 <= i)%Z ->
  comet_frame cfg trail_len direction comet_delay head_brightness head st
    = Ok (tt, st') ->
  star_ok i st -> star_ok i st'.
Proof.
  intros Ha HH Hi; unfold comet_frame, bind.
  destruct (draw_background cfg st) as [[[] st1]| |] eqn:E1; try discriminate.
  destruct (for_each _ _ st1) as [[[] st2]| |] eqn:E2; try discriminate.
  unfold sleep, emit; intros E; inversion E; subst st'; clear E.
  intros Hok; apply (@star_ok_ext i st2); [reflexivity..|].
  apply draw_background_inv in E1; destruct E1 as (Hc & Ht & _).
  revert E2; apply for_each_inv.
  - intros x s s' _ H E; eapply draw_trail_keeps; eassumption.
  - eapply star_ok_ext; eassumption.
Qed.

Lemma comet_loop_keeps i fuel trail_len direction comet_delay head_brightness
    end_ step :
  0 <= AFTERGLOW_MAX cfg -> 0 <= head_brightness -> (0 <= i)%Z ->
  forall head st heads st',
  comet_loop cfg fuel trail_len direction comet_delay head_brightness
    head end_ step st = Ok (heads, st') ->
  star_ok i st -> star_ok i st'.
Proof.
  intros Ha HH Hi; induction fuel as [|fuel IH]; intros head st heads st';
    [rewrite comet_loop_O|rewrite comet_loop_S];
    destruct (Z.eqb_spec head end_) as [Hh|Hh]; unfold ret;
    try (intros E Hok; inversion E; subst; exact Hok); try discriminate.
  unfold bind.
  destruct (comet_frame _ _ _ _ _ _ st) as [[[] st1]| |] eqn:E1;
    try discriminate.
  destruct (comet_loop _ _ _ _ _ _ _ _ _ st1) as [[rest st2]| |] eqn:E2;
    try discriminate.
  intros E Hok; inversion E; subst heads st'; clear E.
  eapply IH; [exact E2|].
  eapply comet_frame_keeps; eassumption.
Qed.

Lemma run_comet_keeps i fuel st heads st' :
  0 <= AFTERGLOW_MAX cfg ->
  0 <= COMET_HEAD_BRIGHT_MIN cfg <= COMET_HEAD_BRIGHT_MAX cfg ->
  unit_draws rng -> (0 <= i)%Z ->
  run_comet cfg rng fuel st = Ok (heads, st') ->
  star_ok i st -> star_ok i st'.
Proof.
  intros Ha Hh Hu Hi; unfold run_comet, bind, randrange, uniform, random, ret.
  destruct (_ <=? _)%Z; [discriminate|].
  simpl.
  match goal with |- context [fly_comet _ _ _ _ _ ?H ?s] =>
    set (H0 := H); set (s0 := s) end.
  assert (HH : 0 <= H0).
  { unfold H0; cbn [fadd fsub fmul Q_scalar].
    match goal with |- context [unit_draw rng ?n] =>
      pose proof (Hu n) as Hn; set (u := unit_draw rng n) in * end.
    assert (0 <= (COMET_HEAD_BRIGHT_MAX cfg - COMET_HEAD_BRIGHT_MIN cfg) * u)
      by (apply Qmult_le_0_compat; lra).
    lra. }
  intros E Hok.
  assert (Hok0 : star_ok i s0) by exact Hok.
  unfold fly_comet in E.
  destruct (_ =? 1)%Z in E; eapply comet_loop_keeps; eassumption.
Qed.

Lemma update_stars_keeps i st st' :
  0 <= STAR_FADE_SPEED cfg -> unit_draws rng -> (0 <= i)%Z ->
  update_stars cfg rng st = Ok (tt, st') -> star_ok i st -> star_ok i st'.
Proof.
  intros Hs Hu Hi E Hok; revert E; apply for_each_inv; [|exact Hok].
  intros j s s' Hj H E; apply range_spec in Hj.
  eapply update_star_keeps; [exact Hs|exact Hu|exact Hi| |exact E|exact H].
  lia.
Qed.

(** C1: if the brightness and the target of star [i] are in
    [STAR_MIN_BRIGHT, STAR_MAX_BRIGHT], they are still in it after a call of
    [update_stars], after the afterglow write of any trail offset, and after
    a whole comet. *)
Theorem brightness_in_range i st :
  0 <= STAR_FADE_SPEED cfg -> 0 <= AFTERGLOW_MAX cfg ->
  0 <= COMET_HEAD_BRIGHT_MIN cfg <= COMET_HEAD_BRIGHT_MAX cfg ->
  unit_draws rng ->
  wf cfg st -> (0 <= i < NUM_LEDS cfg)%Z -> star_ok i st ->
  (exists st', update_stars cfg rng st = Ok (tt, st') /\ star_ok i st') /\
  (forall trail_len direction head_brightness head k,
     0 <= head_brightness ->
     exists st',
       draw_trail cfg trail_len direction head_brightness head k st
       = Ok (tt, st') /\ star_ok i st') /\
  (forall fuel heads st',
     run_comet cfg rng fuel st = Ok (heads, st') -> star_ok i st').
Proof.
  intros Hs Ha Hh Hu Hwf Hi Hok; split; [|split].
  - destruct (update_stars_ok rng Hwf) as (st' & E & _).
    exists st'; split; [exact E|].
    eapply update_stars_keeps; [exact Hs|exact Hu| |exact E|exact Hok]; lia.
  - intros trail_len direction head_brightness head k HH.
    destruct (draw_trail_ok trail_len direction head_brightness head k Hwf)
      as (st' & E & _).
    exists st'; split; [exact E|].
    eapply draw_trail_keeps; [exact Ha|exact HH| |exact E|exact Hok]; lia.
  - intros fuel heads st' E.
    eapply run_comet_keeps; [exact Ha|exact Hh|exact Hu| |exact E|exact Hok].
    lia.
Qed.
End Range.

(* ================================================================== *)
(** ** Exact arithmetic: easing reaches the target *)

Section Convergence.
Variable cfg : Config Q.
Variable rng : Rng Q.
Implicit Types (st : State Q) (c t : Q) (i : Z) (n : nat).

Hypothesis fade_pos : 0 < STAR_FADE_SPEED cfg.

(** One easing step brings the brightness one [STAR_FADE_SPEED] closer to
    the target, or onto it. *)
Lemma ease_closer c t (d : Q) :
  0 <= d -> Qabs (t - c) <= d + STAR_FADE_SPEED cfg ->
  Qabs (t - ease cfg c t) <= d.
Proof.
  intros Hd H; apply Qabs_Qle_condition in H; apply Qabs_Qle_condition.
  unfold ease; cbn [fadd fsub fltb Q_scalar].
  destruct (Qltb_spec c t) as [H1|H1].
  - destruct (Qltb_spec t (c + STAR_FADE_SPEED cfg)); split; lra.
  - destruct (Qltb_spec t c) as [H2|H2];
      [destruct (Qltb_spec (c - STAR_FADE_SPEED cfg) t)|];
      split; lra.
Qed.

Lemma ease_n_reaches t n :
  forall c, Qabs (t - c) <= inject_Z (Z.of_nat n) * STAR_FADE_SPEED cfg ->
  ease_n cfg n c t == t.
Proof.
  induction n as [|n IH]; intros c H.
  - change (inject_Z (Z.of_nat 0)) with 0 in H; rewrite Qmult_0_l in H.
    apply Qabs_Qle_condition in H; simpl ease_n; lra.
  - simpl ease_n; apply IH, ease_closer.
    + apply Qmult_le_0_compat; [|lra].
      change 0 with (inject_Z 0); rewrite <- Zle_Qle; lia.
    + rewrite Nat2Z.inj_succ in H; unfold Z.succ in H.
      rewrite inject_Z_plus in H.
      set (a := inject_Z (Z.of_nat n)) in *.
      assert (Ea : (a + inject_Z 1) * STAR_FADE_SPEED cfg
                   == a * STAR_FADE_SPEED cfg + STAR_FADE_SPEED cfg)
        by (simpl (inject_Z 1); ring).
      rewrite Ea in H; exact H.
Qed.

Lemma ease_n_bound c t n :
  (Qceiling (Qabs (t - c) / STAR_FADE_SPEED cfg) <= Z.of_nat n)%Z ->
  Qabs (t - c) <= inject_Z (Z.of_nat n) * STAR_FADE_SPEED cfg.
Proof.
  intros H; rewrite Zle_Qle in H.
  pose proof (Qle_ceiling (Qabs (t - c) / STAR_FADE_SPEED cfg)) as Hc.
  assert (Hq : Qabs (t - c) / STAR_FADE_SPEED cfg <= inject_Z (Z.of_nat n))
    by (eapply Qle_trans; eassumption).
  set (a := Qabs (t - c)) in *.
  assert (E : a == a / STAR_FADE_SPEED cfg * STAR_FADE_SPEED cfg)
    by (field; intros E0; rewrite E0 in fade_pos; discriminate).
  rewrite E; apply Qmult_le_compat_r; [exact Hq|apply Qlt_le_weak, fade_pos].
Qed.

(** With [STAR_NEW_TARGET_CHANCE] at 0, no draw of [0, 1] is below it. *)
Lemma no_resample_at_zero :
  STAR_NEW_TARGET_CHANCE cfg == 0 -> (forall k, 0 <= unit_draw rng k) ->
  no_resample cfg rng.
Proof.
  intros Hz Hu k; cbn [fltb Q_scalar]; apply Qltb_ge.
  rewrite Hz; apply Hu.
Qed.

(** C2, in exact arithmetic: with [STAR_NEW_TARGET_CHANCE] at 0, a star of
    brightness [c] and target [t] is on its target after [n] calls of
    [update_stars], for every [n] from [ceil (|t - c| / STAR_FADE_SPEED)] on,
    and its target is still [t]. *)
Theorem easing_converges i c t st n :
  STAR_NEW_TARGET_CHANCE cfg == 0 -> (forall k, 0 <= unit_draw rng k) ->
  wf cfg st -> (0 <= i < NUM_LEDS cfg)%Z ->
  getitem (star_current st) i = Some c ->
  getitem (star_target st) i = Some t ->
  (Qceiling (Qabs (t - c) / STAR_FADE_SPEED cfg) <= Z.of_nat n)%Z ->
  exists st' c',
    calls n (update_stars cfg rng) st = Ok (tt, st') /\
    getitem (star_target st') i = Some t /\
    getitem (star_current st') i = Some c' /\
    c' == t.
Proof.
  intros Hz Hu Hwf Hi Ec Et Hn.
  destruct (update_stars_calls n (no_resample_at_zero Hz Hu) Hi Hwf Ec Et)
    as (st' & E & _ & Ec' & Et').
  exists st', (ease_n cfg n c t); split; [exact E|split; [exact Et'|]].
  split; [exact Ec'|].
  apply ease_n_reaches, ease_n_bound; exact Hn.
Qed.
End Convergence.

(* ================================================================== *)
(** ** The exact run of the program *)

(** The configuration [cfg], no star ever getting a new target. *)
Definition with_new_target_chance {F} (cfg : Config F) (p : F) : Config F := {|
  NUM_LEDS := NUM_LEDS cfg;
  STAR_MIN_BRIGHT := STAR_MIN_BRIGHT cfg;
  STAR_MAX_BRIGHT := STAR_MAX_BRIGHT cfg;
  STAR_FADE_SPEED := STAR_FADE_SPEED cfg;
  STAR_NEW_TARGET_CHANCE := p;
  STAR_SATURATION_MAX := STAR_SATURATION_MAX cfg;
  STAR_HUE_SPREAD := STAR_HUE_SPREAD cfg;
  TWINKLE_FRAME_DELAY := TWINKLE_FRAME_DELAY cfg;
  COMET_BASE_CHANCE := COMET_BASE_CHANCE cfg;
  COMET_MIN_TRAIL := COMET_MIN_TRAIL cfg;
  COMET_MAX_TRAIL := COMET_MAX_TRAIL cfg;
  COMET_MIN_SPEED := COMET_MIN_SPEED cfg;
  COMET_MAX_SPEED := COMET_MAX_SPEED cfg;
  COMET_HEAD_BRIGHT_MIN := COMET_HEAD_BRIGHT_MIN cfg;
  COMET_HEAD_BRIGHT_MAX := COMET_HEAD_BRIGHT_MAX cfg;
  AFTERGLOW_MAX := AFTERGLOW_MAX cfg;
  COMET_HUE := COMET_HUE cfg;
  COMET_SAT := COMET_SAT cfg
|}.

(** The configuration [cfg] on a strip of [n] LEDs. *)
Definition with_num_leds {F} (cfg : Config F) (n : Z) : Config F := {|
  NUM_LEDS := n;
  STAR_MIN_BRIGHT := STAR_MIN_BRIGHT cfg;
  STAR_MAX_BRIGHT := STAR_MAX_BRIGHT cfg;
  STAR_FADE_SPEED := STAR_FADE_SPEED cfg;
  STAR_NEW_TARGET_CHANCE := STAR_NEW_TARGET_CHANCE cfg;
  STAR_SATURATION_MAX := STAR_SATURATION_MAX cfg;
  STAR_HUE_SPREAD := STAR_HUE_SPREAD cfg;
  TWINKLE_FRAME_DELAY := TWINKLE_FRAME_DELAY cfg;
  COMET_BASE_CHANCE := COMET_BASE_CHANCE cfg;
  COMET_MIN_TRAIL := COMET_MIN_TRAIL cfg;
  COMET_MAX_TRAIL := COMET_MAX_TRAIL cfg;
  COMET_MIN_SPEED := COMET_MIN_SPEED cfg;
  COMET_MAX_SPEED := COMET_MAX_SPEED cfg;
  COMET_HEAD_BRIGHT_MIN := COMET_HEAD_BRIGHT_MIN cfg;
  COMET_HEAD_BRIGHT_MAX := COMET_HEAD_BRIGHT_MAX cfg;
  AFTERGLOW_MAX := AFTERGLOW_MAX cfg;
  COMET_HUE := COMET_HUE cfg;
  COMET_SAT := COMET_SAT cfg
|}.

(** [l[i]], or 0 where there is none. *)
Definition brightness_at {F} `{Scalar F} (l : list F) (i : Z) : F :=
  match getitem l i with
  | Some c => c
  | None => of_int 0
  end.

Lemma sample_rng_unit : unit_draws (sample_rng (F := Q)).
Proof.
  intros n.
  change (unit_draw sample_rng n)
    with (dec (F := Q) (Z.of_nat ((7 * n) mod 10)) 10).
  pose proof (Nat.mod_upper_bound (7 * n) 10 ltac:(discriminate)) as Hk.
  set (k := Z.of_nat ((7 * n) mod 10)).
  assert (Hk' : (0 <= k < 10)%Z) by (unfold k; lia).
  clearbody k; unfold dec; cbn [fdiv of_int Q_scalar].
  unfold Qle, Qdiv, Qmult, Qinv, inject_Z; simpl; lia.
Qed.

Lemma brightness_in_range_witness :
  exists st',
    update_stars source_config sample_rng (night_sky (F := Q)) = Ok (tt, st') /\
    star_ok source_config 0 st'.
Proof.
  refine (proj1 (@brightness_in_range source_config sample_rng _ 0 night_sky
                   _ _ _ sample_rng_unit night_sky_wf _ _)).
  - vm_compute; discriminate.
  - vm_compute; discriminate.
  - vm_compute; discriminate.
  - vm_compute; split; discriminate.
  - simpl; lia.
  - vm_compute; repeat split; discriminate.
Defined.

Lemma random_star_brightness_biased_witness :
  exists b st1,
    random_star_brightness source_config sample_rng (night_sky (F := Q))
    = Ok (b, st1) /\
    STAR_MIN_BRIGHT source_config <= b <= STAR_MAX_BRIGHT source_config.
Proof.
  destruct (@random_star_brightness_biased source_config sample_rng night_sky)
    as (x & b & st1 & _ & E & _ & _ & Hb & _).
  - vm_compute; discriminate.
  - apply sample_rng_unit.
  - exists b, st1; split; [exact E|exact Hb].
Defined.

(** The state after the trail offset 1 of a comet whose head is on star 2. *)
Definition sample_trail : State Q :=
  state_of (draw_trail source_config 4 1 (dec 8 10) 2 1 night_sky) night_sky.

Lemma trail_shape_witness :
  exists s b,
    events sample_trail
    = events night_sky ++ [SetHsv 1 (COMET_HUE source_config) s b] /\
    b == (8 # 10) * ((3 # 4) * (3 # 4)).
Proof.
  assert (E : draw_trail source_config 4 1 (dec 8 10) 2 1 night_sky
              = Ok (tt, sample_trail)) by (vm_compute; reflexivity).
  destruct (@trail_shape source_config 4 1 (dec 8 10) 2 1 night_sky
              sample_trail ltac:(lia) ltac:(simpl; lia) E)
    as (s & b & Ee & Hb & _).
  exists s, b; split; [exact Ee|].
  rewrite Hb; vm_compute; reflexivity.
Defined.

(** The run of the source file without new targets: star 0 starts at 0.02
    and eases towards 0.4022. *)
Lemma easing_converges_witness :
  let cfg := with_new_target_chance (source_config (F := Q)) 0 in
  exists st' c',
    calls 39 (update_stars cfg sample_rng) night_sky = Ok (tt, st') /\
    getitem (star_target st') 0
    = Some (brightness_at (star_target night_sky) 0) /\
    getitem (star_current st') 0 = Some c' /\
    c' == brightness_at (star_target night_sky) 0.
Proof.
  refine (@easing_converges
            (with_new_target_chance (source_config (F := Q)) 0) sample_rng _
            0 (brightness_at (star_current night_sky) 0)
            (brightness_at (star_target night_sky) 0) night_sky 39
            _ _ night_sky_wf _ _ _ _).
  - vm_compute; reflexivity.
  - vm_compute; reflexivity.
  - intros k; apply sample_rng_unit.
  - simpl; lia.
  - vm_compute; reflexivity.
  - vm_compute; reflexivity.
  - vm_compute; discriminate.
Defined.

(* ================================================================== *)
(** ** Binary64: easing and rounding *)

Lemma SFcompare_refl f : SFcompare f f <> Some Lt.
Proof.
  destruct f as [s|s| |s m e]; simpl; try discriminate.
  - destruct s; discriminate.
  - destruct s; rewrite Z.compare_refl, Pos.compare_cont_refl; discriminate.
Qed.

Lemma f64_ltb_irrefl (x : float) : PrimFloat.ltb x x = false.
Proof.
  rewrite ltb_spec; unfold SFltb.
  pose proof (SFcompare_refl (Prim2SF x)) as H.
  destruct (SFcompare (Prim2SF x) (Prim2SF x)) as [[]|]; congruence.
Qed.

(** Evaluation of a conjunction of closed facts, one conjunct at a time. *)
Ltac evaluate :=
  repeat match goal with |- _ /\ _ => split end; vm_compute; reflexivity.

(** A star on its target stays on it, in binary64 as in exact arithmetic. *)
Lemma f64_ease_at_target (cfg : Config float) (c : float) : ease cfg c c = c.
Proof. apply ease_at_target, f64_ltb_irrefl. Qed.

Lemma Q_ease_at_target (cfg : Config Q) (c : Q) : ease cfg c c = c.
Proof. apply ease_at_target; cbn [fltb Q_scalar]; apply Qltb_ge, Qle_refl. Qed.

(** The configuration of the source file, with [STAR_NEW_TARGET_CHANCE] at
    0. *)
Definition still_config : Config float :=
  with_new_target_chance source_config (of_int 0).

(** Draws of [random()] that make star 0 start at brightness 0.02 with the
    target 0.11. *)
Definition grid_rng : Rng float := {|
  unit_draw := fun n =>
    match n with
    | O => 0%float
    | S O => 0x1.5bd5e3a5fed8ep-2%float
    | _ => dec 5 10
    end;
  int_draw := fun n => Z.of_nat n
|}.

(** The sky [init_stars] makes of these draws. *)
Definition grid_sky : State float :=
  state_of (bind start (fun _ => init_stars still_config grid_rng)
              (initial_state still_config))
           (initial_state still_config).

(** The sky after [n] calls of [update_stars]. *)
Definition grid_sky_after (n : nat) : State float :=
  state_of (calls n (update_stars still_config grid_rng) grid_sky) grid_sky.

(** C2, as stated, fails in binary64.  On the strip of the source file with
    [STAR_NEW_TARGET_CHANCE] at 0, [init_stars] can leave star 0 at
    brightness 0.02 with the target 0.11: [ceil (|t - c| / STAR_FADE_SPEED)]
    is 9, but after 9 calls of [update_stars] the brightness is still below
    the target, which it reaches at the 10th call: the 9 additions of 0.01
    to 0.02 round to less than 0.11. *)
Lemma easing_rounds_short :
  bind start (fun _ => init_stars still_config grid_rng)
    (initial_state still_config) = Ok (tt, grid_sky) /\
  getitem (star_current grid_sky) 0 = Some (dec 2 100) /\
  getitem (star_target grid_sky) 0 = Some (dec 11 100) /\
  Qceiling (Qabs (f64_to_Q (dec 11 100) - f64_to_Q (dec 2 100))
            / f64_to_Q (STAR_FADE_SPEED still_config)) = 9%Z /\
  calls 9 (update_stars still_config grid_rng) grid_sky
  = Ok (tt, grid_sky_after 9) /\
  getitem (star_target (grid_sky_after 9)) 0 = Some (dec 11 100) /\
  option_map (fun c => (c <? dec 11 100)%S)
    (getitem (star_current (grid_sky_after 9)) 0) = Some true /\
  calls 10 (update_stars still_config grid_rng) grid_sky
  = Ok (tt, grid_sky_after 10) /\
  getitem (star_current (grid_sky_after 10)) 0 = Some (dec 11 100).
Proof.
  evaluate.
Qed.

(* ================================================================== *)
(** ** Scenario: a comet entering a strip of 10 LEDs *)

Section Scenario.
Context {F : Type} {SF : Scalar F}.

(** The strip of the scenario. *)
Definition scenario_config : Config F := with_num_leds source_config 10.

Definition scenario_sky : State F :=
  state_of (bind start (fun _ => init_stars scenario_config sample_rng)
              (initial_state scenario_config))
           (initial_state scenario_config).

(** The loop over the trail (lines 152-169) of the comet of the scenario:
    trail length 4, head brightness 0.8, flying forward, its head at
    [head]. *)
Definition scenario_trail (head : Z) : M F unit :=
  for_each (range 4) (draw_trail scenario_config 4 1 (dec 8 10) head).

(** What the loop over the trail writes to the driver. *)
Definition scenario_writes (head : Z) : list (event F) :=
  skipn (length (events scenario_sky))
        (events (state_of (scenario_trail head scenario_sky) scenario_sky)).
End Scenario.

(** C6, as stated, fails.  At the sub-frame where the head is at 0, the
    trail offset 3 is at position -3, off the strip, and writes nothing; the
    one write of the sub-frame's trail is that of offset 0, at position 0,
    with brightness 0.8, not 0.05. *)
Lemma scenario_head_at_0 :
  draw_trail (scenario_config (F := float)) 4 1 (dec 8 10) 0 3 scenario_sky
  = Ok (tt, scenario_sky) /\
  scenario_writes (F := float) 0
  = [SetHsv 0 (COMET_HUE scenario_config) (dec 1 10) (dec 8 10)] /\
  frac (F := float) 4 0 = of_int 1 /\
  PrimFloat.eqb (dec 8 10) (dec 5 100) = false.
Proof.
  evaluate.
Qed.

(** C6, amended: at the sub-frame where the head is at 0, only the offset 0
    is on the strip, with frac 1 and brightness 0.8; the offset 3 is on the
    strip, at position 0, at the sub-frame where the head is at 3, with
    frac (4 - 3) / 4 = 0.25 and brightness 0.8 * 0.0625 = 0.05, in binary64
    as in exact arithmetic. *)
Theorem scenario_trail_writes :
  (scenario_writes (F := float) 0
   = [SetHsv 0 (COMET_HUE scenario_config) (dec 1 10) (dec 8 10)] /\
   scenario_writes (F := float) 3
   = [SetHsv 3 (COMET_HUE scenario_config) (dec 1 10) (dec 8 10);
      SetHsv 2 (COMET_HUE scenario_config) (dec 1 10 * dec 75 100)%S
        (dec 8 10 * (dec 75 100 * dec 75 100))%S;
      SetHsv 1 (COMET_HUE scenario_config) (dec 1 10 * dec 5 10)%S
        (dec 8 10 * (dec 5 10 * dec 5 10))%S;
      SetHsv 0 (COMET_HUE scenario_config) (dec 1 10 * dec 25 100)%S
        (dec 5 100)] /\
   frac (F := float) 4 3 = dec 25 100 /\
   comet_b (F := float) (dec 8 10) 4 3 = dec 5 100) /\
  (map (fun e => match e with SetHsv i _ _ _ => i | _ => (-1)%Z end)
     (scenario_writes (F := Q) 0) = [0%Z] /\
   map (fun e => match e with SetHsv i _ _ _ => i | _ => (-1)%Z end)
     (scenario_writes (F := Q) 3) = [3; 2; 1; 0]%Z /\
   frac (F := Q) 4 3 == 25 # 100 /\
   comet_b (F := Q) (dec 8 10) 4 3 == 5 # 100).
Proof.
  evaluate.
Qed.

(* ================================================================== *)
(** ** The comet [run_comet] draws *)

Section Launch.
Context {F : Type} {SF : Scalar F}.
Variable cfg : Config F.
Variable rng : Rng F.
Implicit Types (st : State F).

(** With trail lengths drawn from a range of positive integers, on a strip
    of at least one LED, [run_comet] flies a comet whose trail length is in
    [1, NUM_LEDS], and returns after [NUM_LEDS + 2 * trail_len]
    sub-frames. *)
Lemma run_comet_terminates fuel st :
  (1 <= COMET_MIN_TRAIL cfg <= COMET_MAX_TRAIL cfg)%Z ->
  (1 <= NUM_LEDS cfg)%Z -> wf cfg st ->
  (sub_frames cfg (NUM_LEDS cfg) <= fuel)%nat ->
  exists trail_len heads st',
    (1 <= trail_len <= NUM_LEDS cfg)%Z /\
    run_comet cfg rng fuel st = Ok (heads, st') /\ wf cfg st' /\
    Z.of_nat (length heads) = (NUM_LEDS cfg + 2 * trail_len)%Z.
Proof.
  intros Ht HN Hwf Hfuel.
  cbv beta delta [run_comet bind randrange uniform random ret].
  destruct (Z.leb_spec (COMET_MAX_TRAIL cfg + 1) (COMET_MIN_TRAIL cfg));
    [lia|].
  cbn [rng_calls with_rng_calls Z.leb Z.compare].
  set (l0 := (COMET_MIN_TRAIL cfg + _ mod _)%Z).
  assert (Hl0 : (COMET_MIN_TRAIL cfg <= l0 <= COMET_MAX_TRAIL cfg)%Z).
  { unfold l0.
    match goal with |- context [(?a mod ?b)%Z] =>
      pose proof (Z.mod_pos_bound a b ltac:(lia)) end.
    lia. }
  clearbody l0.
  set (trail_len := if (l0 >? NUM_LEDS cfg)%Z then NUM_LEDS cfg else l0).
  assert (HL : (1 <= trail_len <= NUM_LEDS cfg)%Z).
  { unfold trail_len; destruct (Z.gtb_spec l0 (NUM_LEDS cfg)); lia. }
  clearbody trail_len.
  match goal with |- context [fly_comet cfg fuel trail_len ?d ?a ?b ?s] =>
    set (direction := d); set (comet_delay := a); set (head_brightness := b);
    set (s0 := s) end.
  assert (Hwf0 : wf cfg s0) by exact Hwf.
  assert (Hfuel' : (sub_frames cfg trail_len <= fuel)%nat)
    by (unfold sub_frames in *; lia).
  assert (E : exists heads st',
             fly_comet cfg fuel trail_len direction comet_delay head_brightness
               s0 = Ok (heads, st') /\ wf cfg st' /\
             length heads = sub_frames cfg trail_len).
  { assert (HL0 : (0 <= trail_len)%Z) by lia.
    destruct (Z.eq_dec direction 1) as [->|Hd].
    - destruct (fly_comet_forward comet_delay head_brightness
                  HL0 Hwf0 Hfuel') as (st' & E & Hwf').
      eexists; exists st'; split; [exact E|split; [exact Hwf'|]].
      apply progression_length.
    - destruct (fly_comet_backward comet_delay head_brightness Hd
                  HL0 Hwf0 Hfuel') as (st' & E & Hwf').
      eexists; exists st'; split; [exact E|split; [exact Hwf'|]].
      apply progression_length. }
  destruct E as (heads & st' & E & Hwf' & Hlen).
  exists trail_len, heads, st'; split; [exact HL|].
  split; [exact E|split; [exact Hwf'|]].
  rewrite Hlen; unfold sub_frames; lia.
Qed.

(** A star on its target stays on it through any number of calls of
    [update_stars], provided no value is below itself. *)
Lemma star_stays_on_target i t n st :
  fltb t t = false ->
  no_resample cfg rng -> wf cfg st -> on_strip cfg i ->
  getitem (star_current st) i = Some t ->
  getitem (star_target st) i = Some t ->
  exists st',
    calls n (update_stars cfg rng) st = Ok (tt, st') /\
    getitem (star_current st') i = Some t /\
    getitem (star_target st') i = Some t.
Proof.
  intros Hirr Hno Hwf Hi Ec Et.
  destruct (update_stars_calls n Hno Hi Hwf Ec Et) as (st' & E & _ & Ec' & Et').
  exists st'; split; [exact E|split; [|exact Et']].
  rewrite Ec'; f_equal; clear - Hirr.
  induction n as [|n IH]; simpl; [reflexivity|].
  rewrite ease_at_target; assumption.
Qed.
End Launch.

(* ================================================================== *)
(** ** [init_stars]: the sky the main loop starts from *)

Section Init.
Context {F : Type} {SF : Scalar F}.
Variable cfg : Config F.
Variable rng : Rng F.
Implicit Types (st : State F) (i j : Z).

(** The draws of [random()] a loop makes are those of its turns. *)
Lemma for_each_draws (A : Type) (lo hi : nat) (l : list A)
    (body : A -> M F unit) :
  (forall x st st', In x l -> body x st = Ok (tt, st') ->
     (rng_calls st + lo <= rng_calls st' <= rng_calls st + hi)%nat) ->
  forall st st', for_each l body st = Ok (tt, st') ->
  (rng_calls st + lo * length l <= rng_calls st'
   <= rng_calls st + hi * length l)%nat.
Proof.
  induction l as [|x l IH]; intros Hb st st'.
  - simpl; unfold ret; intros E; inversion E; subst; lia.
  - simpl for_each; unfold bind.
    destruct (body x st) as [[[] s1]| |] eqn:E1;
      try (intros E0; discriminate E0).
    intros E2; apply IH in E2;
      [|intros y s s' Hy; apply Hb; right; exact Hy].
    pose proof (Hb x st s1 (or_introl eq_refl) E1).
    simpl length; lia.
Qed.

(** The hue [init_stars] makes of the draw [u]: around 220 degrees. *)
Definition star_hue_of (u : F) : F :=
  ((of_int 220
    + (of_int (- STAR_HUE_SPREAD cfg) / of_int 2
       + (of_int (STAR_HUE_SPREAD cfg) / of_int 2
          - of_int (- STAR_HUE_SPREAD cfg) / of_int 2) * u))
   / of_int 360)%S.

(** The saturation [init_stars] makes of the draw [u]. *)
Definition star_sat_of (u : F) : F :=
  (of_int 0 + (STAR_SATURATION_MAX cfg - of_int 0) * u)%S.

(** The body of the loop of [init_stars] for star [j] (lines 86-95): four
    draws, one for each array; no other star is touched and nothing is
    written to the driver. *)
Lemma init_star_at j st st' :
  (0 <= j)%Z ->
  init_star cfg rng j st = Ok (tt, st') ->
  let n := rng_calls st in
  getitem (star_current st') j = Some (star_brightness cfg (unit_draw rng n)) /\
  getitem (star_target st') j
  = Some (star_brightness cfg (unit_draw rng (S n))) /\
  getitem (star_hue st') j = Some (star_hue_of (unit_draw rng (S (S n)))) /\
  getitem (star_sat st') j = Some (star_sat_of (unit_draw rng (S (S (S n))))) /\
  rng_calls st' = S (S (S (S n))) /\
  events st' = events st /\
  forall i, (0 <= i)%Z -> i <> j ->
    getitem (star_current st') i = getitem (star_current st) i /\
    getitem (star_target st') i = getitem (star_target st) i /\
    getitem (star_hue st') i = getitem (star_hue st) i /\
    getitem (star_sat st') i = getitem (star_sat st) i.
Proof.
  intros Hj.
  unfold init_star, random_star_brightness, uniform, random, bind, ret,
    set_current, set_target, set_hue, set_sat, store.
  cbn [rng_calls with_rng_calls star_current star_target star_hue star_sat
       with_current with_target with_hue with_sat].
  fold (star_brightness cfg (unit_draw rng (rng_calls st))).
  destruct (setitem (star_current st) j _) as [l1|] eqn:E1;
    [|intros E0; discriminate E0].
  cbn [rng_calls with_rng_calls star_current star_target star_hue star_sat
       with_current with_target with_hue with_sat].
  fold (star_brightness cfg (unit_draw rng (S (rng_calls st)))).
  destruct (setitem (star_target st) j _) as [l2|] eqn:E2;
    [|intros E0; discriminate E0].
  cbn [rng_calls with_rng_calls star_current star_target star_hue star_sat
       with_current with_target with_hue with_sat].
  fold (star_hue_of (unit_draw rng (S (S (rng_calls st))))).
  destruct (setitem (star_hue st) j _) as [l3|] eqn:E3;
    [|intros E0; discriminate E0].
  cbn [rng_calls with_rng_calls star_current star_target star_hue star_sat
       with_current with_target with_hue with_sat].
  fold (star_sat_of (unit_draw rng (S (S (S (rng_calls st)))))).
  destruct (setitem (star_sat st) j _) as [l4|] eqn:E4;
    intros E; inversion E; subst st'; clear E.
  cbn [rng_calls with_rng_calls star_current star_target star_hue star_sat
       events with_current with_target with_hue with_sat].
  split; [eapply getitem_setitem_same; exact E1|].
  split; [eapply getitem_setitem_same; exact E2|].
  split; [eapply getitem_setitem_same; exact E3|].
  split; [eapply getitem_setitem_same; exact E4|].
  split; [reflexivity|split; [reflexivity|]].
  intros i Hi Hij.
  split; [eapply getitem_setitem_other; [exact Hi|exact Hj|exact Hij|exact E1]|].
  split; [eapply getitem_setitem_other; [exact Hi|exact Hj|exact Hij|exact E2]|].
  split; [eapply getitem_setitem_other; [exact Hi|exact Hj|exact Hij|exact E3]|].
  eapply getitem_setitem_other; [exact Hi|exact Hj|exact Hij|exact E4].
Qed.

(** The SETUP block and [init_stars] on a strip of [NUM_LEDS] LEDs: four
    arrays of [NUM_LEDS] values, four draws of [random()] for each star, and
    no write to the driver. *)
Theorem init_stars_setup :
  (0 <= NUM_LEDS cfg)%Z ->
  exists st',
    bind start (fun _ => init_stars cfg rng) (initial_state cfg) = Ok (tt, st')
    /\ Z.of_nat (length (star_current st')) = NUM_LEDS cfg
    /\ Z.of_nat (length (star_target st')) = NUM_LEDS cfg
    /\ Z.of_nat (length (star_hue st')) = NUM_LEDS cfg
    /\ Z.of_nat (length (star_sat st')) = NUM_LEDS cfg
    /\ Z.of_nat (rng_calls st') = (4 * NUM_LEDS cfg)%Z
    /\ events st' = [Start].
Proof.
  intros HN.
  destruct (init_stars_ok cfg rng HN) as (st' & E & Hwf & He).
  exists st'; split; [exact E|].
  destruct Hwf as (H1 & H2 & H3 & H4).
  split; [exact H1|split; [exact H2|split; [exact H3|split; [exact H4|]]]].
  split; [|exact He].
  unfold bind, start, emit in E; unfold init_stars in E.
  apply for_each_draws with (lo := 4%nat) (hi := 4%nat) in E.
  - rewrite range_length in E; simpl rng_calls in E; lia.
  - intros j s s' Hj Ej; apply range_spec in Hj.
    apply init_star_at in Ej; [|lia].
    cbv zeta in Ej; destruct Ej as (_ & _ & _ & _ & -> & _); lia.
Qed.
End Init.

Lemma init_stars_setup_witness :
  exists st',
    bind start (fun _ => init_stars (source_config (F := Q)) sample_rng)
      (initial_state source_config) = Ok (tt, st') /\
    rng_calls st' = 264%nat.
Proof.
  destruct (@init_stars_setup Q Q_scalar source_config sample_rng
              ltac:(simpl; lia))
    as (st' & E & _ & _ & _ & _ & Hr & _).
  exists st'; split; [exact E|]. simpl in Hr; lia.
Defined.

(* ================================================================== *)
(** ** Exact arithmetic: the sky of [init_stars] *)

Section InitRange.
Variable cfg : Config Q.
Variable rng : Rng Q.
Implicit Types (st : State Q) (i j : Z) (u : Q).

(** A hue within [STAR_HUE_SPREAD / 2] degrees of 220 degrees, as a
    fraction of the circle. *)
Definition hue_ok (h : Q) : Prop :=
  (220 - inject_Z (STAR_HUE_SPREAD cfg) / 2) / 360 <= h
  <= (220 + inject_Z (STAR_HUE_SPREAD cfg) / 2) / 360.

Definition sat_ok (s : Q) : Prop := 0 <= s <= STAR_SATURATION_MAX cfg.

(** Star [i] as [init_stars] has to leave it. *)
Definition star_born i st : Prop :=
  match getitem (star_current st) i, getitem (star_target st) i,
        getitem (star_hue st) i, getitem (star_sat st) i with
  | Some c, Some t, Some h, Some s =>
      in_range cfg c /\ in_range cfg t /\ hue_ok h /\ sat_ok s
  | _, _, _, _ => False
  end.

Lemma Qscale_unit (s u : Q) : 0 <= s -> 0 <= u <= 1 -> 0 <= s * u <= s.
Proof.
  intros Hs (H0 & H1); split; [apply Qmult_le_0_compat; assumption|].
  assert (H : u * s <= 1 * s) by (apply Qmult_le_compat_r; assumption).
  lra.
Qed.

Lemma star_hue_of_ok u :
  (0 <= STAR_HUE_SPREAD cfg)%Z -> 0 <= u <= 1 -> hue_ok (star_hue_of cfg u).
Proof.
  intros HS Hu; unfold hue_ok, star_hue_of; cbn [fadd fsub fmul fdiv of_int Q_scalar].
  rewrite Zle_Qle in HS; rewrite inject_Z_opp.
  change (inject_Z 220) with 220; change (inject_Z 2) with 2;
    change (inject_Z 360) with 360; change (inject_Z 0) with 0 in HS.
  set (s := inject_Z (STAR_HUE_SPREAD cfg)) in *; clearbody s.
  assert (Hsu : 0 <= s * u <= s) by (apply Qscale_unit; assumption).
  assert (E : (220 + (- s / 2 + (s / 2 - - s / 2) * u)) / 360
              == (220 - s / 2 + s * u) / 360) by (field; discriminate).
  assert (E' : forall x, x / 360 * 360 == x) by (intros; field).
  rewrite E; clear E; set (p := s * u) in *; clearbody p.
  assert (Eh : s == s / 2 + s / 2) by field.
  set (h := s / 2) in *; clearbody h.
  split; apply Qle_shift_div_l; try reflexivity; rewrite E'; clear E'; lra.
Qed.

Lemma star_sat_of_ok u :
  0 <= STAR_SATURATION_MAX cfg -> 0 <= u <= 1 -> sat_ok (star_sat_of cfg u).
Proof.
  intros HS Hu; unfold sat_ok, star_sat_of; cbn [fadd fsub fmul of_int Q_scalar].
  change (inject_Z 0) with 0.
  set (s := STAR_SATURATION_MAX cfg) in *.
  assert (Hsu : 0 <= s * u <= s) by (apply Qscale_unit; assumption).
  lra.
Qed.

(** After the SETUP block and [init_stars], every star of the strip has its
    brightness and its target in [STAR_MIN_BRIGHT, STAR_MAX_BRIGHT], its hue
    within [STAR_HUE_SPREAD / 2] degrees of 220 degrees and its saturation in
    [0, STAR_SATURATION_MAX]. *)
Theorem init_stars_in_range :
  STAR_MIN_BRIGHT cfg <= STAR_MAX_BRIGHT cfg ->
  (0 <= STAR_HUE_SPREAD cfg)%Z -> 0 <= STAR_SATURATION_MAX cfg ->
  unit_draws rng -> (0 <= NUM_LEDS cfg)%Z ->
  exists st',
    bind start (fun _ => init_stars cfg rng) (initial_state cfg) = Ok (tt, st')
    /\ forall i, (0 <= i < NUM_LEDS cfg)%Z -> star_born i st'.
Proof.
  intros Hm HS Hsat Hu HN.
  destruct (init_stars_ok cfg rng HN) as (st' & E & _ & _).
  exists st'; split; [exact E|].
  intros i Hi; unfold bind, start, emit in E; unfold init_stars in E.
  apply (@for_each_once Q (fun _ => True) (star_born i) (init_star cfg rng) i
           _ (range_NoDup (NUM_LEDS cfg))) in E.
  - destruct E as (E & _); apply E; [exact I|apply range_spec; exact Hi].
  - intros j s s' Hj Hji Ej; apply range_spec in Hj.
    apply init_star_at in Ej; [|lia]; cbv zeta in Ej.
    destruct Ej as (_ & _ & _ & _ & _ & _ & Hframe).
    destruct (Hframe i ltac:(lia) ltac:(congruence)) as (E1 & E2 & E3 & E4).
    split; [auto|]. unfold star_born; rewrite E1, E2, E3, E4; auto.
  - intros s s' Ei _.
    apply init_star_at in Ei; [|lia]; cbv zeta in Ei.
    destruct Ei as (E1 & E2 & E3 & E4 & _).
    unfold star_born; rewrite E1, E2, E3, E4.
    split; [apply star_brightness_in_range; [exact Hm|apply Hu]|].
    split; [apply star_brightness_in_range; [exact Hm|apply Hu]|].
    split; [apply star_hue_of_ok; [exact HS|apply Hu]|].
    apply star_sat_of_ok; [exact Hsat|apply Hu].
Qed.
End InitRange.

Lemma init_stars_in_range_witness :
  star_born source_config 65 (night_sky (F := Q)).
Proof.
  destruct (@init_stars_in_range source_config sample_rng) as (st' & E & H).
  - vm_compute; discriminate.
  - simpl; lia.
  - vm_compute; discriminate.
  - exact sample_rng_unit.
  - simpl; lia.
  - unfold night_sky; rewrite E; apply H; simpl; lia.
Defined.

(* ================================================================== *)
(** ** What a frame writes to the driver *)

Section Rendering.
Context {F : Type} {SF : Scalar F}.
Variable cfg : Config F.
Variable rng : Rng F.
Implicit Types (st : State F) (i j k : Z).

(** The write that shows star [i] as the arrays of [st] have it. *)
Definition pixel st i : event F :=
  SetHsv i (brightness_at (star_hue st) i) (brightness_at (star_sat st) i)
         (brightness_at (star_current st) i).

(** The write of the trail offset [k] (lines 155-164). *)
Definition trail_pixel (trail_len direction : Z) (head_brightness : F)
    (head k : Z) : event F :=
  SetHsv (head - k * direction) (COMET_HUE cfg) (tail_sat cfg trail_len k)
         (comet_b head_brightness trail_len k).

(** The test of line 154. *)
Definition on_stripb (pos : Z) : bool :=
  ((0 <=? pos) && (pos <? NUM_LEDS cfg))%Z.

Lemma on_stripb_spec pos : on_stripb pos = true <-> on_strip cfg pos.
Proof.
  unfold on_stripb, on_strip.
  rewrite andb_true_iff, Z.leb_le, Z.ltb_lt; tauto.
Qed.

(** A loop of [draw_star] writes the stars of its indices, in order, and
    changes no array. *)
Lemma draw_loop_spec l :
  (forall i, In i l -> on_strip cfg i) ->
  forall st, wf cfg st ->
  for_each l draw_star st
  = Ok (tt, with_events st (events st ++ map (pixel st) l)).
Proof.
  induction l as [|i l IH]; intros Hl st Hwf.
  - simpl; unfold ret; rewrite app_nil_r; destruct st; reflexivity.
  - simpl for_each; unfold bind.
    destruct (wf_getitem Hwf (Hl i (or_introl eq_refl)))
      as ((c & Ec) & _ & (h & Eh) & (s & Es)).
    assert (Ep : pixel st i = SetHsv i h s c)
      by (unfold pixel, brightness_at; rewrite Eh, Es, Ec; reflexivity).
    rewrite draw_star_spec, Eh, Es, Ec.
    rewrite IH; [|intros j Hj; apply Hl; right; exact Hj|exact Hwf].
    simpl map; rewrite Ep.
    change (events st ++ SetHsv i h s c :: map (pixel st) l)
      with (events st ++ [SetHsv i h s c] ++ map (pixel st) l).
    rewrite app_assoc; reflexivity.
Qed.

(** [update_stars] leaves hues and saturations as they are and writes every
    LED once, from 0 to [NUM_LEDS - 1], with the hue and the saturation of
    its star and the brightness the call has just given it. *)
Theorem update_stars_writes st :
  wf cfg st ->
  exists st',
    update_stars cfg rng st = Ok (tt, st') /\ wf cfg st' /\
    star_hue st' = star_hue st /\ star_sat st' = star_sat st /\
    events st' = events st ++ map (pixel st') (range (NUM_LEDS cfg)).
Proof.
  intros Hwf.
  assert (Hpos : Forall (fun j => 0 <= j)%Z (range (NUM_LEDS cfg)))
    by (apply Forall_forall; intros j Hj; apply range_spec in Hj; lia).
  unfold update_stars.
  rewrite (fused_loop_split cfg rng st Hpos (range_NoDup _)); unfold bind.
  destruct (for_each_ok (wf cfg) (range (NUM_LEDS cfg)) (star_update cfg rng))
    with (st := st) as (s1 & E1 & Hwf1); [|exact Hwf|].
  { intros j s Hj Hs; apply range_spec in Hj; apply star_update_ok; assumption. }
  rewrite E1.
  destruct (star_updates_frame _ _ _ Hpos E1) as (Hh & Hs & He & _).
  rewrite draw_loop_spec;
    [|intros j Hj; apply range_spec in Hj; exact Hj|exact Hwf1].
  eexists; split; [reflexivity|].
  split; [exact Hwf1|split; [exact Hh|split; [exact Hs|]]].
  simpl; rewrite He; reflexivity.
Qed.

(** The loop over the trail writes the offsets whose position is on the
    strip, in the order of the offsets. *)
Lemma trail_loop_writes trail_len direction head_brightness head l :
  forall st, wf cfg st ->
  exists st',
    for_each l (draw_trail cfg trail_len direction head_brightness head) st
    = Ok (tt, st') /\ wf cfg st' /\
    events st' = events st ++
      map (trail_pixel trail_len direction head_brightness head)
          (filter (fun k => on_stripb (head - k * direction)) l).
Proof.
  induction l as [|k l IH]; intros st Hwf.
  - exists st; split; [reflexivity|split; [exact Hwf|]].
    simpl; rewrite app_nil_r; reflexivity.
  - destruct (draw_trail_ok trail_len direction head_brightness head k Hwf)
      as (s1 & E1 & Hwf1).
    destruct (IH s1 Hwf1) as (st' & E2 & Hwf' & He).
    exists st'; split; [simpl; unfold bind; rewrite E1; exact E2|].
    split; [exact Hwf'|].
    apply draw_trail_inv in E1; cbv zeta in E1.
    rewrite He; simpl filter.
    destruct E1 as [(Hoff & ->)|(Hon & c & l' & _ & _ & ->)].
    + destruct (on_stripb (head - k * direction)) eqn:Eb; [|reflexivity].
      apply on_stripb_spec in Eb; contradiction.
    + apply on_stripb_spec in Hon; rewrite Hon.
      simpl; rewrite <- app_assoc; reflexivity.
Qed.

(** One sub-frame of a comet (lines 147-171) writes all the stars as they
    are before it, then the trail offsets that are on the strip, head first,
    then sleeps [comet_delay] once. *)
Theorem comet_frame_writes trail_len direction comet_delay head_brightness head
    st :
  wf cfg st ->
  exists st',
    comet_frame cfg trail_len direction comet_delay head_brightness head st
    = Ok (tt, st') /\ wf cfg st' /\
    events st' = events st
      ++ map (pixel st) (range (NUM_LEDS cfg))
      ++ map (trail_pixel trail_len direction head_brightness head)
             (filter (fun k => on_stripb (head - k * direction))
                     (range trail_len))
      ++ [Sleep comet_delay].
Proof.
  intros Hwf; unfold comet_frame, bind, draw_background.
  rewrite draw_loop_spec;
    [|intros j Hj; apply range_spec in Hj; exact Hj|exact Hwf].
  destruct (trail_loop_writes trail_len direction head_brightness head
              (range trail_len)
              (wf_with_events (events st ++ map (pixel st) (range (NUM_LEDS cfg)))
                 Hwf)) as (s2 & E2 & Hwf2 & He).
  rewrite E2; unfold sleep, emit.
  eexists; split; [reflexivity|split; [exact Hwf2|]].
  simpl; rewrite He; simpl; rewrite <- !app_assoc; reflexivity.
Qed.
End Rendering.

Lemma update_stars_writes_witness :
  exists st',
    update_stars source_config sample_rng (night_sky (F := Q)) = Ok (tt, st') /\
    length (events st') = 67%nat.
Proof.
  destruct (@update_stars_writes Q Q_scalar source_config sample_rng night_sky
              night_sky_wf) as (st' & E & _ & _ & _ & He).
  exists st'; split; [exact E|].
  rewrite He, length_app, length_map, range_length; reflexivity.
Defined.

Lemma comet_frame_writes_witness :
  exists st',
    comet_frame (source_config (F := Q)) 4 1 (dec 2 100) (dec 8 10) 2 night_sky
    = Ok (tt, st') /\
    length (events st') = 71%nat.
Proof.
  destruct (@comet_frame_writes Q Q_scalar source_config 4 1 (dec 2 100)
              (dec 8 10) 2 night_sky night_sky_wf) as (st' & E & _ & He).
  exists st'; split; [exact E|].
  rewrite He; vm_compute; reflexivity.
Defined.

(* ================================================================== *)
(** ** Exact arithmetic: one easing step, one trail write *)

Section Steps.
Variable cfg : Config Q.
Implicit Types (st : State Q) (c t : Q) (i k : Z).

(** One easing step (lines 109-116) never passes the target and never moves
    away from it: within [STAR_FADE_SPEED] of the target it lands on it,
    further away it comes exactly [STAR_FADE_SPEED] closer. *)
Theorem ease_step c t :
  0 <= STAR_FADE_SPEED cfg ->
  (c <= t -> c <= ease cfg c t <= t) /\
  (t <= c -> t <= ease cfg c t <= c) /\
  (Qabs (t - c) <= STAR_FADE_SPEED cfg -> ease cfg c t == t) /\
  (STAR_FADE_SPEED cfg <= Qabs (t - c) ->
   Qabs (t - ease cfg c t) == Qabs (t - c) - STAR_FADE_SPEED cfg).
Proof.
  intros Hs.
  destruct (ease_between cfg c t Hs) as (H1 & H2).
  split; [exact H1|split; [exact H2|clear H1 H2; split]].
  - intros Ha; apply Qabs_Qle_condition in Ha.
    unfold ease; cbn [fadd fsub fltb Q_scalar].
    destruct (Qltb_spec c t) as [H1|H1].
    + destruct (Qltb_spec t (c + STAR_FADE_SPEED cfg)); lra.
    + destruct (Qltb_spec t c) as [H2|H2];
        [destruct (Qltb_spec (c - STAR_FADE_SPEED cfg) t)|]; lra.
  - intros Ha.
    unfold ease; cbn [fadd fsub fltb Q_scalar].
    destruct (Qltb_spec c t) as [H1|H1].
    + assert (E : Qabs (t - c) == t - c) by (apply Qabs_pos; lra).
      rewrite E in *.
      destruct (Qltb_spec t (c + STAR_FADE_SPEED cfg)); [lra|].
      rewrite Qabs_pos; lra.
    + destruct (Qltb_spec t c) as [H2|H2].
      * assert (E : Qabs (t - c) == - (t - c)) by (apply Qabs_neg; lra).
        rewrite E in *.
        destruct (Qltb_spec (c - STAR_FADE_SPEED cfg) t); [lra|].
        rewrite Qabs_neg; lra.
      * assert (E : Qabs (t - c) == t - c) by (apply Qabs_pos; lra).
        rewrite E in *; lra.
Qed.

Lemma frac_le_1 trail_len k :
  (0 <= k < trail_len)%Z -> frac trail_len k <= 1.
Proof.
  intros Hk; unfold frac; cbn [fdiv of_int Q_scalar].
  apply Qle_shift_div_r;
    [change 0 with (inject_Z 0); rewrite <- Zlt_Qlt; lia|].
  rewrite Qmult_1_l, <- Zle_Qle; lia.
Qed.

Lemma frac_head trail_len : (0 < trail_len)%Z -> frac trail_len 0 == 1.
Proof.
  intros HL; unfold frac; cbn [fdiv of_int Q_scalar].
  rewrite Z.sub_0_r; apply Qmult_inv_r.
  intros E; change 0 with (inject_Z 0) in E; rewrite inject_Z_injective in E.
  lia.
Qed.

Lemma comet_b_le_head head_brightness trail_len k :
  0 <= head_brightness -> (0 <= k < trail_len)%Z ->
  comet_b head_brightness trail_len k <= head_brightness.
Proof.
  intros HH Hk; unfold comet_b; cbn [fmul Q_scalar].
  pose proof (frac_pos Hk) as Hp; pose proof (frac_le_1 Hk) as H1.
  set (f := frac trail_len k) in *; clearbody f.
  assert (Hf : 0 <= f * f <= 1) by nra.
  destruct (Qscale_unit HH Hf) as (_ & H); exact H.
Qed.

(** The write of a trail offset [k] of [0, trail_len) has a brightness in
    [0, head_brightness] and a saturation in [0, COMET_SAT]; the head of the
    comet, offset 0, is written with exactly [head_brightness] and
    [COMET_SAT]. *)
Theorem trail_pixel_bounds trail_len direction head_brightness head k :
  (0 <= k < trail_len)%Z -> 0 <= head_brightness -> 0 <= COMET_SAT cfg ->
  exists s b,
    trail_pixel cfg trail_len direction head_brightness head k
    = SetHsv (head - k * direction) (COMET_HUE cfg) s b /\
    0 <= b <= head_brightness /\ 0 <= s <= COMET_SAT cfg /\
    (k = 0%Z -> b == head_brightness /\ s == COMET_SAT cfg).
Proof.
  intros Hk HH HS.
  exists (tail_sat cfg trail_len k), (comet_b head_brightness trail_len k).
  split; [reflexivity|split; [|split]].
  - split; [apply comet_b_nonneg; exact HH|apply comet_b_le_head; assumption].
  - unfold tail_sat; cbn [fmul Q_scalar].
    apply Qscale_unit; [exact HS|].
    split; [apply Qlt_le_weak, frac_pos; exact Hk|apply frac_le_1; exact Hk].
  - intros ->; unfold comet_b, tail_sat; cbn [fmul Q_scalar].
    rewrite (@frac_head trail_len ltac:(lia)); split; ring.
Qed.

(** A sub-frame of a comet never dims a star: a star of brightness [c], at
    most [STAR_MAX_BRIGHT], comes out of it with a brightness of
    [c, STAR_MAX_BRIGHT] that exceeds [c] by at most
    [head_brightness * AFTERGLOW_MAX]. *)
Theorem afterglow_brightens trail_len direction comet_delay head_brightness
    head st st' i c :
  direction = 1%Z \/ direction = (-1)%Z ->
  0 <= AFTERGLOW_MAX cfg -> 0 <= head_brightness ->
  wf cfg st -> (0 <= i < NUM_LEDS cfg)%Z ->
  comet_frame cfg trail_len direction comet_delay head_brightness head st
    = Ok (tt, st') ->
  getitem (star_current st) i = Some c -> c <= STAR_MAX_BRIGHT cfg ->
  exists c',
    getitem (star_current st') i = Some c' /\
    c <= c' <= STAR_MAX_BRIGHT cfg /\
    c' <= c + head_brightness * AFTERGLOW_MAX cfg.
Proof.
  intros Hd Ha HH Hwf Hi E Ec Hc.
  assert (Hd0 : direction <> 0%Z) by (destruct Hd; subst; discriminate).
  assert (Hg : 0 <= head_brightness * AFTERGLOW_MAX cfg)
    by (apply Qmult_le_0_compat; assumption).
  destruct (comet_frame_inv _ _ _ _ _ _ Hd0 E) as (_ & H1 & H2).
  set (k0 := ((head - i) * direction)%Z).
  assert (Ek0 : (head - k0 * direction)%Z = i)
    by (unfold k0; destruct Hd; subst; lia).
  assert (Euniq : forall k, i = (head - k * direction)%Z -> k = k0)
    by (intros k; unfold k0; destruct Hd as [Hd|Hd]; rewrite Hd; lia).
  clearbody k0.
  destruct (Z_le_dec 0 k0) as [Hk0|Hk0];
    [destruct (Z_lt_dec k0 trail_len) as [Hk1|Hk1]|].
  - destruct (H1 k0 (conj Hk0 Hk1)) as (c0 & Ec0 & Ec');
      [rewrite Ek0; exact Hi|].
    rewrite Ek0 in Ec0, Ec'; rewrite Ec in Ec0; inversion Ec0; subst c0.
    eexists; split; [exact Ec'|].
    pose proof (@comet_b_nonneg head_brightness trail_len k0 HH) as Hb0.
    pose proof (comet_b_le_head HH (conj Hk0 Hk1)) as Hb1.
    unfold afterglow, py_min; cbn [fadd fmul fltb Q_scalar].
    set (b := comet_b head_brightness trail_len k0) in *; clearbody b.
    assert (Hba : 0 <= b * AFTERGLOW_MAX cfg
                  <= head_brightness * AFTERGLOW_MAX cfg).
    { split; [apply Qmult_le_0_compat; assumption|].
      apply Qmult_le_compat_r; assumption. }
    set (g := b * AFTERGLOW_MAX cfg) in *; clearbody g.
    set (G := head_brightness * AFTERGLOW_MAX cfg) in *; clearbody G.
    destruct (Qltb_spec (STAR_MAX_BRIGHT cfg) (c + g)); split; try split; lra.
  - exists c; split; [|split; [split|]; lra].
    rewrite H2; [exact Ec|lia|].
    intros k Hk _ Hpos; apply Hk1.
    rewrite <- (Euniq k Hpos); lia.
  - exists c; split; [|split; [split|]; lra].
    rewrite H2; [exact Ec|lia|].
    intros k Hk _ Hpos; apply Hk0.
    rewrite <- (Euniq k Hpos); lia.
Qed.
End Steps.

Lemma ease_step_witness :
  ease (source_config (F := Q)) (2 # 100) (11 # 100) <= 11 # 100.
Proof.
  refine (proj2 (proj1 (@ease_step source_config (2 # 100) (11 # 100) _) _));
    vm_compute; discriminate.
Defined.

Lemma trail_pixel_bounds_witness :
  exists s b,
    trail_pixel (source_config (F := Q)) 4 1 (8 # 10) 2 1
    = SetHsv 1 (COMET_HUE source_config) s b /\
    0 <= b <= 8 # 10.
Proof.
  destruct (@trail_pixel_bounds source_config 4 1 (8 # 10) 2 1)
    as (s & b & E & Hb & _).
  - lia.
  - vm_compute; discriminate.
  - vm_compute; discriminate.
  - exists s, b; split; [exact E|exact Hb].
Defined.

Lemma afterglow_brightens_witness :
  exists c',
    getitem (star_current sample_frame) 1 = Some c' /\
    brightness_at (star_current night_sky) 1 <= c'.
Proof.
  assert (E : comet_frame source_config 4 1 (dec 2 100) (dec 8 10) 2 night_sky
              = Ok (tt, sample_frame)) by (vm_compute; reflexivity).
  destruct (@afterglow_brightens source_config 4 1 (dec 2 100) (dec 8 10) 2
              night_sky sample_frame 1
              (brightness_at (star_current night_sky) 1))
    as (c' & Ec' & (Hc & _) & _).
  - left; reflexivity.
  - vm_compute; discriminate.
  - vm_compute; discriminate.
  - exact night_sky_wf.
  - simpl; lia.
  - exact E.
  - vm_compute; reflexivity.
  - vm_compute; discriminate.
  - exists c'; split; [exact Ec'|exact Hc].
Defined.

(* ================================================================== *)
(** ** When the loop of a comet exits *)

Section Exit.
Context {F : Type} {SF : Scalar F}.
Variable cfg : Config F.
Variable rng : Rng F.
Implicit Types (st : State F).

(** A result that is an exception neither of the arrays nor of the random
    module, and whose state, if there is one, satisfies [P]. *)
Definition no_raise (A : Type) (P : State F -> Prop) (r : result (A * State F))
  : Prop :=
  match r with
  | Ok (_, st') => P st'
  | Raised _ => False
  | OutOfFuel => True
  end.

(** A head that has started beyond its exit bound never meets it: the test
    [head != end] of line 146 holds for ever. *)
Lemma comet_loop_diverges trail_len direction comet_delay head_brightness
    end_ step :
  forall fuel head st, wf cfg st ->
  (step = 1 /\ end_ < head)%Z \/ (step = -1 /\ head < end_)%Z ->
  comet_loop cfg fuel trail_len direction comet_delay head_brightness
    head end_ step st = OutOfFuel.
Proof.
  induction fuel as [|fuel IH]; intros head st Hwf Hgap;
    [rewrite comet_loop_O|rewrite comet_loop_S];
    (destruct (Z.eqb_spec head end_) as [Hh|Hh]; [lia|]); [reflexivity|].
  destruct (comet_frame_ok trail_len direction comet_delay head_brightness
              head Hwf) as (st1 & E1 & Hwf1).
  unfold bind; rewrite E1, IH; [reflexivity|exact Hwf1|lia].
Qed.

(** The loop of a comet exits exactly when
    [NUM_LEDS + 2 * trail_len >= 0], after that many sub-frames; for a more
    negative trail length the head starts beyond its exit bound and the loop
    never exits. *)
Theorem fly_comet_exits trail_len direction comet_delay head_brightness st :
  wf cfg st ->
  ((0 <= NUM_LEDS cfg + 2 * trail_len)%Z ->
   exists heads st',
     fly_comet cfg (sub_frames cfg trail_len) trail_len direction comet_delay
       head_brightness st = Ok (heads, st') /\
     Z.of_nat (length heads) = (NUM_LEDS cfg + 2 * trail_len)%Z) /\
  ((NUM_LEDS cfg + 2 * trail_len < 0)%Z ->
   forall fuel,
     fly_comet cfg fuel trail_len direction comet_delay head_brightness st
     = OutOfFuel).
Proof.
  intros Hwf; split.
  - intros Hn; unfold fly_comet.
    destruct (direction =? 1)%Z.
    + destruct (@comet_loop_run _ _ cfg trail_len direction comet_delay
                  head_brightness (NUM_LEDS cfg + trail_len) 1
                  (sub_frames cfg trail_len) ltac:(discriminate)
                  (sub_frames cfg trail_len) (- trail_len)%Z st)
        as (st' & E & _);
        [unfold sub_frames; lia|exact Hwf|apply le_n|].
      eexists; exists st'; split; [exact E|].
      rewrite progression_length; unfold sub_frames; lia.
    + destruct (@comet_loop_run _ _ cfg trail_len direction comet_delay
                  head_brightness (- trail_len) (-1)
                  (sub_frames cfg trail_len) ltac:(discriminate)
                  (sub_frames cfg trail_len) (NUM_LEDS cfg + trail_len)%Z st)
        as (st' & E & _);
        [unfold sub_frames; lia|exact Hwf|apply le_n|].
      eexists; exists st'; split; [exact E|].
      rewrite progression_length; unfold sub_frames; lia.
  - intros Hn fuel; unfold fly_comet.
    destruct (direction =? 1)%Z; apply comet_loop_diverges;
      try exact Hwf; lia.
Qed.
End Exit.

Lemma fly_comet_exits_witness :
  fly_comet (source_config (F := Q)) 1000 (-40) 1 (dec 2 100) (dec 8 10)
    night_sky = OutOfFuel.
Proof.
  refine (proj2 (@fly_comet_exits Q Q_scalar source_config (-40) 1 (dec 2 100)
                   (dec 8 10) night_sky night_sky_wf) _ 1000%nat).
  simpl; lia.
Defined.


(* ================================================================== *)
(** ** The main loop *)

Section MainLoop.
Context {F : Type} {SF : Scalar F}.
Variable cfg : Config F.
Variable rng : Rng F.
Implicit Types (st : State F).

Hypothesis trail_range : (COMET_MIN_TRAIL cfg <= COMET_MAX_TRAIL cfg)%Z.

(** What a turn of the main loop keeps: four arrays of [NUM_LEDS] values,
    the hues and the saturations. *)
Definition turn_keeps st st' : Prop :=
  wf cfg st' /\ star_hue st' = star_hue st /\ star_sat st' = star_sat st /\
  led_trace cfg st st'.

Lemma turn_keeps_refl st : wf cfg st -> turn_keeps st st.
Proof. intros H; repeat split; try apply H. apply led_trace_refl. Qed.

Lemma turn_keeps_trans st1 st2 st3 :
  turn_keeps st1 st2 -> turn_keeps st2 st3 -> turn_keeps st1 st3.
Proof.
  intros (_ & Hh1 & Hs1 & Ht1) (Hwf & Hh2 & Hs2 & Ht2).
  split; [exact Hwf|split; [congruence|split; [congruence|]]].
  eapply led_trace_trans; eassumption.
Qed.

Lemma comet_loop_no_raise fuel trail_len direction comet_delay head_brightness
    end_ step :
  forall head st, wf cfg st ->
  no_raise (turn_keeps st)
    (comet_loop cfg fuel trail_len direction comet_delay head_brightness
       head end_ step st).
Proof.
  induction fuel as [|fuel IH]; intros head st Hwf;
    [rewrite comet_loop_O|rewrite comet_loop_S];
    destruct (Z.eqb_spec head end_) as [Hh|Hh]; unfold ret; simpl;
    try (apply turn_keeps_refl; exact Hwf); try exact I.
  unfold bind.
  destruct (comet_frame_ok trail_len direction comet_delay head_brightness
              head Hwf) as (st1 & E1 & Hwf1).
  rewrite E1.
  assert (K1 : turn_keeps st st1).
  { pose proof E1 as E1'; apply comet_frame_same_sky in E1'.
    destruct E1' as (_ & Hh1 & Hs1).
    split; [exact Hwf1|split; [exact Hh1|split; [exact Hs1|]]].
    apply comet_frame_emits in E1; destruct E1 as (evs & Ee & Hevs).
    exists (evs ++ [Sleep comet_delay]); split; [exact Ee|].
    apply Forall_app; split.
    - eapply Forall_impl; [apply strip_write_led_ok|exact Hevs].
    - constructor; [exact I|constructor]. }
  pose proof (IH (head + step)%Z st1 Hwf1) as H2.
  destruct (comet_loop _ _ _ _ _ _ _ _ _ st1) as [[rest st2]| |];
    simpl in *; auto.
  eapply turn_keeps_trans; eassumption.
Qed.

(** [run_comet] raises nothing when the range of trail lengths is not
    empty. *)
Lemma run_comet_no_raise fuel st :
  wf cfg st -> no_raise (turn_keeps st) (run_comet cfg rng fuel st).
Proof.
  intros Hwf; cbv beta delta [run_comet bind randrange uniform random ret].
  destruct (Z.leb_spec (COMET_MAX_TRAIL cfg + 1) (COMET_MIN_TRAIL cfg));
    [lia|].
  cbn [rng_calls with_rng_calls Z.leb Z.compare].
  match goal with |- context [fly_comet cfg fuel ?l ?d ?a ?b ?s] =>
    set (trail_len := l); set (direction := d); set (comet_delay := a);
    set (head_brightness := b); set (s0 := s) end.
  assert (Hwf0 : wf cfg s0) by exact Hwf.
  unfold fly_comet.
  destruct (direction =? 1)%Z.
  - pose proof (comet_loop_no_raise fuel trail_len direction comet_delay
                  head_brightness (NUM_LEDS cfg + trail_len) 1 (- trail_len)
                  Hwf0) as H0.
    destruct (comet_loop _ _ _ _ _ _ _ _ _ s0) as [[heads st']| |];
      simpl in *; auto.
  - pose proof (comet_loop_no_raise fuel trail_len direction comet_delay
                  head_brightness (- trail_len) (-1) (NUM_LEDS cfg + trail_len)
                  Hwf0) as H0.
    destruct (comet_loop _ _ _ _ _ _ _ _ _ s0) as [[heads st']| |];
      simpl in *; auto.
Qed.

(** [update_stars] writes no hue and no saturation. *)
Lemma update_stars_same_colours st st' :
  update_stars cfg rng st = Ok (tt, st') ->
  star_hue st' = star_hue st /\ star_sat st' = star_sat st.
Proof.
  intros E.
  apply (for_each_inv
           (fun s => star_hue s = star_hue st /\ star_sat s = star_sat st)
           (range (NUM_LEDS cfg)) (update_star cfg rng)) with (st := st);
    [|split; reflexivity|exact E].
  intros j s s' _ (Hh & Hs) Ej; apply update_star_inv in Ej.
  destruct Ej as (s1 & s2 & c & t & h & sa & E1 & _ & _ & _ & E2 & _ & _ & ->).
  apply new_target_inv in E1; destruct E1 as (_ & Hh1 & Hs1 & _).
  cbn [star_hue star_sat with_events]; rewrite E2.
  cbn [star_hue star_sat with_current]; split; congruence.
Qed.

Lemma update_stars_keeps_turn st :
  wf cfg st ->
  exists st', update_stars cfg rng st = Ok (tt, st') /\ turn_keeps st st'.
Proof.
  intros Hwf.
  destruct (update_stars_ok rng Hwf) as (st' & E & Hwf').
  destruct (update_stars_same_colours _ E) as (Hh & Hs).
  exists st'; split; [exact E|].
  split; [exact Hwf'|split; [exact Hh|split; [exact Hs|]]].
  apply strip_writes_led_trace; eapply update_stars_emits; exact E.
Qed.


(** One turn of the main loop (lines 181-191) raises nothing; when it
    completes, the arrays still have [NUM_LEDS] values, hues and saturations
    are as before, every write to the driver was on the strip, and the last
    thing it did was to sleep [TWINKLE_FRAME_DELAY]. *)
Lemma main_iteration_no_raise fuel st :
  wf cfg st ->
  no_raise (fun st' =>
              exists s, turn_keeps st s /\
                st' = with_events s
                        (events s ++ [Sleep (TWINKLE_FRAME_DELAY cfg)]))
    (main_iteration cfg rng fuel st).
Proof.
  intros Hwf; unfold main_iteration, bind.
  destruct (update_stars_keeps_turn Hwf) as (st1 & -> & K1).
  unfold uniform, random, bind, ret; simpl.
  destruct (fltb _ _).
  - match goal with |- context [run_comet cfg rng fuel ?s] =>
      set (s0 := s) end.
    assert (K0 : turn_keeps st s0) by exact K1.
    pose proof (@run_comet_no_raise fuel s0 (proj1 K0)) as H.
    destruct (run_comet cfg rng fuel s0) as [[heads st2]| |];
      simpl in *; auto.
    exists st2; split; [eapply turn_keeps_trans; eassumption|reflexivity].
  - simpl.
    exists (with_rng_calls (with_rng_calls st1 (S (rng_calls st1)))
              (S (S (rng_calls st1)))).
    split; [exact K1|reflexivity].
Qed.

(** The program raises nothing and never leaves its main loop: whatever
    the fuel, it is still running when the fuel runs out. *)
Lemma main_loop_runs fuel :
  forall st, wf cfg st -> main_loop cfg rng fuel st = OutOfFuel.
Proof.
  induction fuel as [|fuel IH]; intros st Hwf; [reflexivity|].
  simpl main_loop; unfold bind.
  pose proof (main_iteration_no_raise (S fuel) Hwf) as H.
  destruct (main_iteration cfg rng (S fuel) st) as [[[] st1]| |];
    simpl in H; [|contradiction|reflexivity].
  destruct H as (s & (Hwf1 & _) & ->); apply IH; exact Hwf1.
Qed.

Theorem program_never_raises fuel :
  (0 <= NUM_LEDS cfg)%Z -> program cfg rng fuel = OutOfFuel.
Proof.
  intros HN; unfold program.
  destruct (init_stars_ok cfg rng HN) as (st0 & E & Hwf & _).
  unfold bind in *.
  destruct (start (initial_state cfg)) as [[[] s0]| |]; try discriminate.
  destruct (init_stars cfg rng s0) as [[[] s1]| |]; try discriminate.
  inversion E; subst s1; apply main_loop_runs; exact Hwf.
Qed.

(** With enough fuel for a comet, a turn of the main loop completes. *)
Theorem main_iteration_completes fuel st :
  (1 <= COMET_MIN_TRAIL cfg)%Z -> (1 <= NUM_LEDS cfg)%Z ->
  wf cfg st -> (sub_frames cfg (NUM_LEDS cfg) <= fuel)%nat ->
  exists st' evs,
    main_iteration cfg rng fuel st = Ok (tt, st') /\
    wf cfg st' /\ star_hue st' = star_hue st /\ star_sat st' = star_sat st /\
    events st' = events st ++ evs ++ [Sleep (TWINKLE_FRAME_DELAY cfg)] /\
    Forall (led_ok cfg) evs.
Proof.
  intros Hmin HN Hwf Hfuel.
  pose proof (main_iteration_no_raise fuel Hwf) as H.
  assert (E : exists st', main_iteration cfg rng fuel st = Ok (tt, st')).
  { unfold main_iteration, bind.
    destruct (update_stars_keeps_turn Hwf) as (st1 & -> & K1).
    unfold uniform, random, bind, ret; simpl.
    destruct (fltb _ _); [|eexists; reflexivity].
    match goal with |- context [run_comet cfg rng fuel ?s] =>
      set (s0 := s) end.
    assert (Hwf0 : wf cfg s0) by exact (proj1 K1).
    destruct (@run_comet_terminates _ _ cfg rng fuel s0
                (conj Hmin trail_range) HN Hwf0 Hfuel)
      as (L & heads & s2 & _ & -> & _).
    eexists; reflexivity. }
  destruct E as (st' & E); rewrite E in H; simpl in H.
  destruct H as (s & (Hwf' & Hh & Hs & evs & Ee & Hevs) & ->).
  exists (with_events s (events s ++ [Sleep (TWINKLE_FRAME_DELAY cfg)])), evs.
  split; [exact E|split; [exact Hwf'|split; [exact Hh|split; [exact Hs|]]]].
  split; [simpl; rewrite Ee, <- app_assoc; reflexivity|exact Hevs].
Qed.
End MainLoop.


Lemma program_never_raises_witness :
  program (source_config (F := Q)) sample_rng 3 = OutOfFuel.
Proof.
  apply (@program_never_raises Q Q_scalar source_config sample_rng);
    simpl; lia.
Defined.

Lemma main_iteration_completes_witness :
  exists st' evs,
    main_iteration (source_config (F := Q)) sample_rng 200 night_sky
    = Ok (tt, st') /\
    events st'
    = events night_sky ++ evs ++ [Sleep (TWINKLE_FRAME_DELAY source_config)].
Proof.
  destruct (@main_iteration_completes Q Q_scalar source_config sample_rng
              ltac:(simpl; lia) 200 night_sky)
    as (st' & evs & E & _ & _ & _ & Ee & _).
  - simpl; lia.
  - simpl; lia.
  - exact night_sky_wf.
  - vm_compute; lia.
  - exists st', evs; split; [exact E|exact Ee].
Defined.

(* ================================================================== *)
(** ** The draws of [update_stars] *)

Section Draws.
Context {F : Type} {SF : Scalar F}.
Variable cfg : Config F.
Variable rng : Rng F.
Implicit Types (st : State F) (j : Z).

(** The body of the loop for one star makes one draw, and a second one when
    the first is below [STAR_NEW_TARGET_CHANCE]; without a second draw no
    target changes. *)
Lemma update_star_draws j st st' :
  update_star cfg rng j st = Ok (tt, st') ->
  let r := unit_draw rng (rng_calls st) in
  (fltb r (STAR_NEW_TARGET_CHANCE cfg) = false ->
   rng_calls st' = S (rng_calls st) /\ star_target st' = star_target st) /\
  (fltb r (STAR_NEW_TARGET_CHANCE cfg) = true ->
   rng_calls st' = S (S (rng_calls st))).
Proof.
  intros E; apply update_star_inv in E.
  destruct E as (st1 & st2 & c & t & h & s & E1 & _ & _ & _ & E2 & _ & _ & ->).
  assert (Hr : rng_calls st2 = rng_calls st1) by (rewrite E2; reflexivity).
  assert (Ht : star_target st2 = star_target st1) by (rewrite E2; reflexivity).
  apply new_target_inv in E1; destruct E1 as (_ & _ & _ & _ & Hcase).
  cbv zeta; cbn [rng_calls star_target with_events]; rewrite Hr, Ht.
  destruct Hcase as [(Er & Et1 & Er1)|(Er & _ & Er1)]; rewrite Er;
    split; intros E0; try discriminate E0; auto.
Qed.

(** A call of [update_stars] makes between [NUM_LEDS] and [2 * NUM_LEDS]
    draws of [random()]; when no draw is below [STAR_NEW_TARGET_CHANCE] it
    makes exactly [NUM_LEDS] draws and changes no target. *)
Theorem update_stars_draws st :
  wf cfg st ->
  exists st',
    update_stars cfg rng st = Ok (tt, st') /\
    (Z.of_nat (rng_calls st) + NUM_LEDS cfg <= Z.of_nat (rng_calls st')
     <= Z.of_nat (rng_calls st) + 2 * NUM_LEDS cfg)%Z /\
    (no_resample cfg rng ->
     Z.of_nat (rng_calls st') = (Z.of_nat (rng_calls st) + NUM_LEDS cfg)%Z /\
     star_target st' = star_target st).
Proof.
  intros Hwf; pose proof (wf_NUM_LEDS Hwf) as HN.
  destruct (update_stars_ok rng Hwf) as (st' & E & _).
  exists st'; split; [exact E|]; unfold update_stars in E; split.
  - apply for_each_draws with (lo := 1%nat) (hi := 2%nat) in E.
    + rewrite range_length in E; lia.
    + intros j s s' _ Ej; apply update_star_draws in Ej; cbv zeta in Ej.
      destruct Ej as (H0 & H1).
      destruct (fltb (unit_draw rng (rng_calls s)) (STAR_NEW_TARGET_CHANCE cfg));
        [rewrite H1 by reflexivity|destruct H0 as (-> & _); [reflexivity|]];
        lia.
  - intros Hno; split.
    + apply for_each_draws with (lo := 1%nat) (hi := 1%nat) in E.
      * rewrite range_length in E; lia.
      * intros j s s' _ Ej; apply update_star_draws in Ej; cbv zeta in Ej.
        destruct Ej as (H0 & _); destruct (H0 (Hno _)) as (-> & _); lia.
    + apply (for_each_inv (fun s => star_target s = star_target st)
               (range (NUM_LEDS cfg)) (update_star cfg rng)) with (st := st);
        [|reflexivity|exact E].
      intros j s s' _ Hs Ej; apply update_star_draws in Ej; cbv zeta in Ej.
      destruct Ej as (H0 & _); destruct (H0 (Hno _)) as (_ & ->); exact Hs.
Qed.
End Draws.

Lemma update_stars_draws_witness :
  exists st',
    update_stars source_config sample_rng (night_sky (F := Q)) = Ok (tt, st') /\
    (Z.of_nat (rng_calls st') <= Z.of_nat (rng_calls night_sky) + 132)%Z.
Proof.
  destruct (@update_stars_draws Q Q_scalar source_config sample_rng night_sky
              night_sky_wf) as (st' & E & (_ & H) & _).
  exists st'; split; [exact E|exact H].
Defined.

(* ================================================================== *)
(** ** The pace of a comet *)

Section Pace.
Context {F : Type} {SF : Scalar F}.
Variable cfg : Config F.
Implicit Types (st : State F).

(** A write on the strip, or a sleep of [d]. *)
Definition frame_event (d : F) (e : event F) : Prop :=
  strip_write cfg e \/ e = Sleep d.

Lemma comet_loop_pace fuel trail_len direction comet_delay head_brightness
    end_ step :
  forall head st heads st',
  comet_loop cfg fuel trail_len direction comet_delay head_brightness
    head end_ step st = Ok (heads, st') ->
  exists evs,
    events st' = events st ++ evs /\ Forall (frame_event comet_delay) evs /\
    sleeps evs = length heads.
Proof.
  induction fuel as [|fuel IH]; intros head st heads st';
    [rewrite comet_loop_O|rewrite comet_loop_S];
    destruct (Z.eqb_spec head end_) as [Hh|Hh]; unfold ret;
    try (intros E; inversion E; subst; exists [];
         rewrite app_nil_r; split; [reflexivity|split; [constructor|reflexivity]]);
    try discriminate.
  unfold bind.
  destruct (comet_frame _ _ _ _ _ _ st) as [[[] st1]| |] eqn:E1;
    try discriminate.
  destruct (comet_loop _ _ _ _ _ _ _ _ _ st1) as [[rest st2]| |] eqn:E2;
    try discriminate.
  intros E; inversion E; subst heads st'; clear E.
  apply comet_frame_emits in E1; destruct E1 as (evs1 & Ee1 & H1).
  apply IH in E2; destruct E2 as (evs2 & Ee2 & H2 & Hs).
  exists ((evs1 ++ [Sleep comet_delay]) ++ evs2); split; [|split].
  - rewrite Ee2, Ee1, <- !app_assoc; reflexivity.
  - apply Forall_app; split; [apply Forall_app; split|exact H2].
    + eapply Forall_impl; [|exact H1]. intros e He; left; exact He.
    + constructor; [right; reflexivity|constructor].
  - rewrite !sleeps_app, (strip_write_not_sleep H1), Hs; simpl; reflexivity.
Qed.
End Pace.

Section ExactPace.
Variable cfg : Config Q.
Variable rng : Rng Q.

(** Between two sub-frames, a comet of [run_comet] sleeps one and the same
    delay, drawn from [COMET_MIN_SPEED, COMET_MAX_SPEED]; it does nothing
    else to the outside but write on the strip. *)
Theorem run_comet_pace fuel st heads st' :
  COMET_MIN_SPEED cfg <= COMET_MAX_SPEED cfg -> unit_draws rng ->
  run_comet cfg rng fuel st = Ok (heads, st') ->
  exists d evs,
    COMET_MIN_SPEED cfg <= d <= COMET_MAX_SPEED cfg /\
    events st' = events st ++ evs /\
    Forall (frame_event cfg d) evs /\
    sleeps evs = length heads.
Proof.
  intros Hm Hu; cbv beta delta [run_comet bind randrange uniform random ret].
  destruct (_ <=? _)%Z; [discriminate|].
  cbn [rng_calls with_rng_calls Z.leb Z.compare].
  match goal with |- context [fly_comet cfg fuel ?l ?dir ?a ?b ?s] =>
    set (trail_len := l); set (direction := dir); set (comet_delay := a);
    set (head_brightness := b); set (s0 := s) end.
  intros E; exists comet_delay.
  assert (Hd : COMET_MIN_SPEED cfg <= comet_delay <= COMET_MAX_SPEED cfg).
  { unfold comet_delay; cbn [fadd fsub fmul Q_scalar].
    match goal with |- context [unit_draw rng ?n] =>
      pose proof (Hu n) as Hn; set (u := unit_draw rng n) in *; clearbody u end.
    assert (Hw : 0 <= COMET_MAX_SPEED cfg - COMET_MIN_SPEED cfg) by lra.
    pose proof (Qscale_unit Hw Hn) as Hp.
    set (p := (COMET_MAX_SPEED cfg - COMET_MIN_SPEED cfg) * u) in *.
    clearbody p; lra. }
  unfold fly_comet in E.
  destruct (direction =? 1)%Z; apply comet_loop_pace in E;
    destruct E as (evs & Ee & He & Hs); exists evs;
    (split; [exact Hd|split; [exact Ee|split; [exact He|exact Hs]]]).
Qed.
End ExactPace.

(** The comet [run_comet] flies over the strip of 10 LEDs. *)
Definition sample_comet : list Z * State Q :=
  match run_comet scenario_config sample_rng 40 scenario_sky with
  | Ok r => r
  | _ => ([], scenario_sky)
  end.

Lemma run_comet_pace_witness :
  exists d,
    COMET_MIN_SPEED (scenario_config (F := Q)) <= d
    <= COMET_MAX_SPEED scenario_config.
Proof.
  assert (E : run_comet scenario_config sample_rng 40 (scenario_sky (F := Q))
              = Ok (fst sample_comet, snd sample_comet))
    by (vm_compute; reflexivity).
  assert (Hm : COMET_MIN_SPEED (scenario_config (F := Q))
               <= COMET_MAX_SPEED scenario_config)
    by (vm_compute; discriminate).
  destruct (@run_comet_pace scenario_config sample_rng 40 scenario_sky
              (fst sample_comet) (snd sample_comet) Hm sample_rng_unit E)
    as (d & _ & Hd & _).
  exists d; exact Hd.
Defined.

(* ================================================================== *)
(** ** Binary64: a star on its target *)

(** In binary64 as well, a star whose brightness is its target keeps it
    through any number of calls of [update_stars] that draw no new
    target. *)
Theorem f64_star_stays_on_target (cfg : Config float) (rng : Rng float)
    (i : Z) (t : float) (n : nat) (st : State float) :
  no_resample cfg rng -> wf cfg st -> (0 <= i < NUM_LEDS cfg)%Z ->
  getitem (star_current st) i = Some t ->
  getitem (star_target st) i = Some t ->
  exists st',
    calls n (update_stars cfg rng) st = Ok (tt, st') /\
    getitem (star_current st') i = Some t /\
    getitem (star_target st') i = Some t.
Proof.
  intros Hno Hwf Hi Ec Et.
  apply star_stays_on_target; try assumption.
  apply f64_ltb_irrefl.
Qed.

Lemma grid_rng_no_resample : no_resample still_config grid_rng.
Proof. intros [|[|n]]; vm_compute; reflexivity. Qed.

Lemma f64_star_stays_on_target_witness :
  exists st',
    calls 5 (update_stars still_config grid_rng) (grid_sky_after 10)
    = Ok (tt, st') /\
    getitem (star_current st') 0 = Some (dec 11 100).
Proof.
  destruct (@f64_star_stays_on_target still_config grid_rng 0 (dec 11 100) 5
              (grid_sky_after 10) grid_rng_no_resample)
    as (st' & E & Ec & _).
  - unfold wf; evaluate.
  - simpl; lia.
  - vm_compute; reflexivity.
  - vm_compute; reflexivity.
  - exists st'; split; [exact E|exact Ec].
Defined.
